(** * A shallow embedding of the hybrid C/Python lexer ([lexer_no_ai.py])

    The development follows the Python source: the [Lexer] object is a
    record that is threaded through the methods, every [while] loop is a
    fixpoint on a fuel argument that counts executions of the loop body, and
    running out of fuel is reported as [None].  The public methods hand each
    loop the number of characters that are left, and the theorems show that
    this is always enough. *)

From Stdlib Require Import Ascii String List Bool Arith Lia Sorted.
Import ListNotations.

Local Open Scope list_scope.

(** ** Characters and text *)

(** A Python string is modelled as a list of characters; characters are the
    code points 0..255. *)
Definition text := list ascii.

Definition str (s : string) : text := list_ascii_of_string s.
Arguments str s%_string.

Definition NL : ascii := "010"%char.
Definition TAB : ascii := "009"%char.
Definition CR : ascii := "013"%char.
Definition SPACE : ascii := " "%char.
Definition BACKSLASH : ascii := "092"%char.
Definition DQUOTE : ascii := "034"%char.
Definition SQUOTE : ascii := "039"%char.
Definition HASH : ascii := "#"%char.
Definition SLASH : ascii := "/"%char.
Definition STAR : ascii := "*"%char.
Definition DOT : ascii := "."%char.
Definition UNDERSCORE : ascii := "_"%char.

Definition code (c : ascii) : nat := nat_of_ascii c.

Definition in_range (lo hi : nat) (c : ascii) : bool :=
  (lo <=? code c) && (code c <=? hi).

(** [str.isdigit], [str.isalpha] and [str.isalnum] on the code points
    0..255: besides the ASCII digits and letters, Python counts the
    superscript digits (178, 179, 185) as digits, the Latin-1 letters as
    alphabetic, and the vulgar fractions (188..190) as alphanumeric. *)
Definition isdigit (c : ascii) : bool :=
  in_range 48 57 c || (code c =? 178) || (code c =? 179) || (code c =? 185).

Definition isalpha (c : ascii) : bool :=
  in_range 65 90 c || in_range 97 122 c
  || (code c =? 170) || (code c =? 181) || (code c =? 186)
  || in_range 192 214 c || in_range 216 246 c || in_range 248 255 c.

Definition isalnum (c : ascii) : bool :=
  isalpha c || isdigit c || in_range 188 190 c.

(** [c in chars] for a one-character string [c]. *)
Definition in_chars (c : ascii) (chars : text) : bool :=
  existsb (Ascii.eqb c) chars.

Fixpoint text_eqb (a b : text) : bool :=
  match a, b with
  | [], [] => true
  | x :: a', y :: b' => Ascii.eqb x y && text_eqb a' b'
  | _, _ => false
  end.

(** [w in words] for a list of strings. *)
Definition in_words (w : text) (words : list text) : bool :=
  existsb (text_eqb w) words.

(** ** Token types and tokens *)

Definition TOKEN_TYPES_KEYWORD : list text :=
  [ str "auto"; str "break"; str "case"; str "char"; str "const";
    str "continue"; str "default"; str "do";
    str "double"; str "else"; str "enum"; str "extern"; str "float";
    str "for"; str "goto"; str "if";
    str "int"; str "long"; str "register"; str "return"; str "short";
    str "signed"; str "sizeof"; str "static";
    str "struct"; str "switch"; str "typedef"; str "union"; str "unsigned";
    str "void"; str "volatile"; str "while";
    str "print"; str "input"; str "def"; str "class"; str "import";
    str "from"; str "as"; str "try"; str "except";
    str "finally"; str "raise"; str "with"; str "yield"; str "lambda";
    str "pass"; str "True"; str "False"; str "None";
    str "and"; str "or"; str "not"; str "in"; str "is"; str "elif" ].

Inductive TokenType : Set :=
| KEYWORD | IDENTIFIER | INTEGER | FLOAT | STRING | COMMENT
| PREPROCESSOR | NEWLINE | OPERATOR | DELIMITER | UNKNOWN.

Record Token : Set := mkToken {
  tok_type : TokenType;
  tok_value : text;
  tok_line : nat;
  tok_column : nat
}.

(** ** The lexer object *)

Record Lexer : Set := mkLexer {
  source : text;
  pos : nat;
  line : nat;
  column : nat;
  tokens : list Token
}.

(** [Lexer.__init__] *)
Definition Lexer_init (src : text) : Lexer := mkLexer src 0 1 1 [].

Definition current_char (self : Lexer) : option ascii :=
  if pos self <? length (source self)
  then nth_error (source self) (pos self)
  else None.

Definition peek_char (self : Lexer) : option ascii :=
  if pos self + 1 <? length (source self)
  then nth_error (source self) (pos self + 1)
  else None.

(** [o == c] for an optional character [o] ([None] equals no character). *)
Definition is_char (o : option ascii) (c : ascii) : bool :=
  match o with
  | Some d => Ascii.eqb d c
  | None => false
  end.

Definition advance (self : Lexer) : Lexer :=
  if is_char (current_char self) NL
  then mkLexer (source self) (pos self + 1) (line self + 1) 1 (tokens self)
  else mkLexer (source self) (pos self + 1) (line self) (column self + 1)
         (tokens self).

Definition add_token (self : Lexer) (token_type : TokenType) (v : text)
    (l c : nat) : Lexer :=
  mkLexer (source self) (pos self) (line self) (column self)
    (tokens self ++ [mkToken token_type v l c]).

(** The number of characters from the cursor to the end of the source: no
    loop of the lexer runs its body more often than that. *)
Definition budget (self : Lexer) : nat := length (source self) - pos self.

Definition hspace : text := [SPACE; TAB; CR].

Fixpoint skip_whitespace_loop (fuel : nat) (self : Lexer) : option Lexer :=
  match current_char self with
  | Some c =>
      if in_chars c hspace then
        match fuel with
        | 0 => None
        | S fuel' => skip_whitespace_loop fuel' (advance self)
        end
      else Some self
  | None => Some self
  end.

Definition skip_whitespace (self : Lexer) : option Lexer :=
  skip_whitespace_loop (budget self) self.

(** *** Numbers *)

Fixpoint lex_number_loop (fuel : nat) (self : Lexer) (num_str : text)
    (is_float : bool) : option (Lexer * text * bool) :=
  match current_char self with
  | Some c =>
      if isdigit c || Ascii.eqb c DOT then
        if Ascii.eqb c DOT && is_float then Some (self, num_str, is_float)
        else
          let is_float' := if Ascii.eqb c DOT then true else is_float in
          match fuel with
          | 0 => None
          | S fuel' =>
              lex_number_loop fuel' (advance self) (num_str ++ [c]) is_float'
          end
      else Some (self, num_str, is_float)
  | None => Some (self, num_str, is_float)
  end.

Definition lex_number (self : Lexer) : option Lexer :=
  let start_line := line self in
  let start_col := column self in
  match lex_number_loop (budget self) self [] false with
  | Some (self', num_str, is_float) =>
      let token_type := if is_float then FLOAT else INTEGER in
      Some (add_token self' token_type num_str start_line start_col)
  | None => None
  end.

(** *** Identifiers and keywords *)

Fixpoint lex_identifier_loop (fuel : nat) (self : Lexer) (word : text)
    : option (Lexer * text) :=
  match current_char self with
  | Some c =>
      if isalnum c || Ascii.eqb c UNDERSCORE then
        match fuel with
        | 0 => None
        | S fuel' => lex_identifier_loop fuel' (advance self) (word ++ [c])
        end
      else Some (self, word)
  | None => Some (self, word)
  end.

Definition lex_identifier (self : Lexer) : option Lexer :=
  let start_line := line self in
  let start_col := column self in
  match lex_identifier_loop (budget self) self [] with
  | Some (self', word) =>
      if in_words word TOKEN_TYPES_KEYWORD
      then Some (add_token self' KEYWORD word start_line start_col)
      else Some (add_token self' IDENTIFIER word start_line start_col)
  | None => None
  end.

(** *** Strings *)

Fixpoint lex_string_loop (fuel : nat) (self : Lexer) (quote_char : ascii)
    (string_val : text) : option (Lexer * text) :=
  match current_char self with
  | Some c =>
      if negb (Ascii.eqb c quote_char) then
        match fuel with
        | 0 => None
        | S fuel' =>
            let '(self1, val1) :=
              if Ascii.eqb c BACKSLASH
              then (advance self, string_val ++ [c])
              else (self, string_val) in
            let '(self2, val2) :=
              match current_char self1 with
              | Some d => (advance self1, val1 ++ [d])
              | None => (self1, val1)
              end in
            lex_string_loop fuel' self2 quote_char val2
        end
      else Some (self, string_val)
  | None => Some (self, string_val)
  end.

Definition lex_string (self : Lexer) (quote_char : ascii) : option Lexer :=
  let start_line := line self in
  let start_col := column self in
  let string_val := [quote_char] in
  let self := advance self in
  match lex_string_loop (budget self) self quote_char string_val with
  | Some (self, string_val) =>
      let '(self, string_val) :=
        match current_char self with
        | Some c =>
            if Ascii.eqb c quote_char
            then (advance self, string_val ++ [c])
            else (self, string_val)
        | None => (self, string_val)
        end in
      Some (add_token self STRING string_val start_line start_col)
  | None => None
  end.

(** *** Comments and preprocessor directives *)

Fixpoint until_newline_loop (fuel : nat) (self : Lexer) (acc : text)
    : option (Lexer * text) :=
  match current_char self with
  | Some c =>
      if negb (Ascii.eqb c NL) then
        match fuel with
        | 0 => None
        | S fuel' => until_newline_loop fuel' (advance self) (acc ++ [c])
        end
      else Some (self, acc)
  | None => Some (self, acc)
  end.

Definition lex_single_comment (self : Lexer) : option Lexer :=
  let start_line := line self in
  let start_col := column self in
  match until_newline_loop (budget self) self [] with
  | Some (self', comment) =>
      Some (add_token self' COMMENT comment start_line start_col)
  | None => None
  end.

Fixpoint lex_multi_comment_loop (fuel : nat) (self : Lexer) (comment : text)
    : option (Lexer * text) :=
  match current_char self with
  | Some c =>
      match fuel with
      | 0 => None
      | S fuel' =>
          if Ascii.eqb c STAR && is_char (peek_char self) SLASH
          then Some (advance (advance self), comment ++ [STAR; SLASH])
          else lex_multi_comment_loop fuel' (advance self) (comment ++ [c])
      end
  | None => Some (self, comment)
  end.

Definition lex_multi_comment (self : Lexer) : option Lexer :=
  let start_line := line self in
  let start_col := column self in
  let comment := [SLASH; STAR] in
  let self := advance self in
  let self := advance self in
  match lex_multi_comment_loop (budget self) self comment with
  | Some (self, comment) =>
      Some (add_token self COMMENT comment start_line start_col)
  | None => None
  end.

Definition lex_preprocessor (self : Lexer) : option Lexer :=
  let start_line := line self in
  let start_col := column self in
  match until_newline_loop (budget self) self [] with
  | Some (self', directive) =>
      Some (add_token self' PREPROCESSOR directive start_line start_col)
  | None => None
  end.

(** *** Newlines *)

(** The value of a [NEWLINE] token is the Python literal ["\\n"]: a
    backslash followed by the letter n. *)
Definition NEWLINE_VALUE : text := [BACKSLASH; "n"%char].

Definition lex_newline (self : Lexer) : Lexer :=
  let start_line := line self in
  let start_col := column self in
  let self := add_token self NEWLINE NEWLINE_VALUE start_line start_col in
  advance self.

(** ** The dispatcher *)

Definition multi_char_ops : list text :=
  [ str "=="; str "!="; str "<="; str ">="; str "&&"; str "||"; str "++";
    str "--"; str "+="; str "-="; str "*="; str "/="; str "<<"; str ">>";
    str "->"; str "**"; str "//" ].

Definition single_ops : text := str "+-*/%=<>!&|^~?:@".
Definition delimiters : text := str "(){}[];,.".

(** The [if] statements of the loop body, in source order; [BHashComment]
    is the second test of [ch == '#'] (the Python-style comment). *)
Inductive Branch : Set :=
| BNewline | BPreprocessor | BLineComment | BBlockComment | BHashComment
| BNumber | BIdentifier | BString | BMultiOp | BSingleOp | BDelimiter
| BUnknown.

(** How one execution of the loop body ends: by [break], or by reaching the
    next iteration from the branch that fired. *)
Inductive Flow : Set :=
| Break (self : Lexer)
| Continue (b : Branch) (self : Lexer).

Definition continue_with (b : Branch) (r : option Lexer) : option Flow :=
  option_map (Continue b) r.

(** The two-character lookup: [None] when there is no lookahead character or
    the pair is not in the table. *)
Definition two_char_op (self : Lexer) (ch : ascii) : option text :=
  match peek_char self with
  | Some nx =>
      let two_char := [ch; nx] in
      if in_words two_char multi_char_ops then Some two_char else None
  | None => None
  end.

(** The chain of [if] statements of the loop body, for the current
    character [ch]. *)
Definition dispatch (self : Lexer) (ch : ascii) : option Flow :=
  if Ascii.eqb ch NL then
    Some (Continue BNewline (lex_newline self))
  else if Ascii.eqb ch HASH then
    continue_with BPreprocessor (lex_preprocessor self)
  else if Ascii.eqb ch SLASH && is_char (peek_char self) SLASH then
    continue_with BLineComment (lex_single_comment self)
  else if Ascii.eqb ch SLASH && is_char (peek_char self) STAR then
    continue_with BBlockComment (lex_multi_comment self)
  else if Ascii.eqb ch HASH then
    continue_with BHashComment (lex_single_comment self)
  else if isdigit ch then
    continue_with BNumber (lex_number self)
  else if isalpha ch || Ascii.eqb ch UNDERSCORE then
    continue_with BIdentifier (lex_identifier self)
  else if in_chars ch [DQUOTE; SQUOTE] then
    continue_with BString (lex_string self ch)
  else
    match two_char_op self ch with
    | Some two_char =>
        let self :=
          add_token self OPERATOR two_char (line self) (column self) in
        Some (Continue BMultiOp (advance (advance self)))
    | None =>
        if in_chars ch single_ops then
          let self :=
            add_token self OPERATOR [ch] (line self) (column self) in
          Some (Continue BSingleOp (advance self))
        else if in_chars ch delimiters then
          let self :=
            add_token self DELIMITER [ch] (line self) (column self) in
          Some (Continue BDelimiter (advance self))
        else
          let self :=
            add_token self UNKNOWN [ch] (line self) (column self) in
          Some (Continue BUnknown (advance self))
    end.

(** One execution of the body of the [while] loop of [tokenize]. *)
Definition tokenize_body (self : Lexer) : option Flow :=
  match skip_whitespace self with
  | None => None
  | Some self =>
      match current_char self with
      | None => Some (Break self)
      | Some ch => dispatch self ch
      end
  end.

Fixpoint tokenize_loop (fuel : nat) (self : Lexer) : option Lexer :=
  if pos self <? length (source self) then
    match fuel with
    | 0 => None
    | S fuel' =>
        match tokenize_body self with
        | None => None
        | Some (Break self') => Some self'
        | Some (Continue _ self') => tokenize_loop fuel' self'
        end
    end
  else Some self.

(** [Lexer.tokenize]: the loop, then [return self.tokens]. *)
Definition tokenize (self : Lexer) : option (list Token) :=
  option_map tokens (tokenize_loop (budget self) self).

(** [Lexer(source).tokenize()], the one call the collaborators make. *)
Definition lex (src : text) : option (list Token) :=
  tokenize (Lexer_init src).

(** ** The callers of the lexer *)

Definition TokenType_eq_dec (a b : TokenType) : {a = b} + {a <> b}.
Proof. decide equality. Defined.

(** [t.type != "NEWLINE"] *)
Definition not_NEWLINE (t : Token) : bool :=
  if TokenType_eq_dec (tok_type t) NEWLINE then false else true.

(** The dictionary [type_count] of [display_tokens]: keys in insertion
    order, each key once. *)
Definition TypeCount := list (TokenType * nat).

(** [d.get(k, default)] *)
Fixpoint dict_get (d : TypeCount) (k : TokenType) (default : nat) : nat :=
  match d with
  | [] => default
  | (k', v) :: d' =>
      if TokenType_eq_dec k' k then v else dict_get d' k default
  end.

(** [d[k] = v] *)
Fixpoint dict_set (d : TypeCount) (k : TokenType) (v : nat) : TypeCount :=
  match d with
  | [] => [(k, v)]
  | (k', v') :: d' =>
      if TokenType_eq_dec k' k then (k', v) :: d'
      else (k', v') :: dict_set d' k v
  end.

(** The loop of [display_tokens] over the tokens: the tokens it prints, in
    order, and the dictionary it builds. *)
Fixpoint display_loop (tokens : list Token) (printed : list Token)
    (type_count : TypeCount) : list Token * TypeCount :=
  match tokens with
  | [] => (printed, type_count)
  | token :: rest =>
      if not_NEWLINE token then
        display_loop rest (printed ++ [token])
          (dict_set type_count (tok_type token)
             (dict_get type_count (tok_type token) 0 + 1))
      else display_loop rest printed type_count
  end.

Definition display_printed (tokens : list Token) : list Token :=
  fst (display_loop tokens [] []).

Definition display_type_count (tokens : list Token) : TypeCount :=
  snd (display_loop tokens [] []).

(** [sum(type_count.values())], the number shown as the total. *)
Definition display_total (tokens : list Token) : nat :=
  list_sum (map snd (display_type_count tokens)).

(** The response model of the web endpoint ([api.py]). *)
Record TokenOut : Set := mkTokenOut {
  out_type : TokenType;
  out_value : text;
  out_line : nat;
  out_column : nat
}.

Definition to_TokenOut (t : Token) : TokenOut :=
  mkTokenOut (tok_type t) (tok_value t) (tok_line t) (tok_column t).

(** The handler of [POST /api/lex]: a fresh lexer on the submitted code,
    [tokenize], and the tokens other than [NEWLINE] as the response. *)
Definition api_lex (code : text) : option (list TokenOut) :=
  let lexer := Lexer_init code in
  match tokenize lexer with
  | Some tokens => Some (map to_TokenOut (filter not_NEWLINE tokens))
  | None => None
  end.

(** * Definitions for the specification

    The text that is left, the effect of advancing over a piece of text,
    the characters each loop reads, the lexeme the loop body finds, and the
    predicates the theorems are stated with. *)

(** The part of the source that is still to be read. *)
Definition remaining (self : Lexer) : text := skipn (pos self) (source self).

(** The (line, column) bookkeeping of [advance], on its own. *)
Definition step_loc (lc : nat * nat) (c : ascii) : nat * nat :=
  if Ascii.eqb c NL then (fst lc + 1, 1) else (fst lc, snd lc + 1).

Definition loc_after (lc : nat * nat) (p : text) : nat * nat :=
  fold_left step_loc p lc.

(** The lexer after it has advanced over the characters [p]. *)
Definition consume (p : text) (self : Lexer) : Lexer :=
  let lc := loc_after (line self, column self) p in
  mkLexer (source self) (pos self + length p) (fst lc) (snd lc) (tokens self).

Arguments consume : simpl never.
Arguments advance : simpl never.
Arguments add_token : simpl never.
Arguments remaining : simpl never.

Fixpoint take_while (f : ascii -> bool) (l : text) : text :=
  match l with
  | [] => []
  | c :: r => if f c then c :: take_while f r else []
  end.

Fixpoint drop_while (f : ascii -> bool) (l : text) : text :=
  match l with
  | [] => []
  | c :: r => if f c then drop_while f r else l
  end.

Definition is_hspace (c : ascii) : bool := in_chars c hspace.
Definition not_newline (c : ascii) : bool := negb (Ascii.eqb c NL).
Definition is_word_char (c : ascii) : bool := isalnum c || Ascii.eqb c UNDERSCORE.

Arguments in_chars : simpl never.
Arguments in_words : simpl never.
Arguments isdigit : simpl never.
Arguments isalpha : simpl never.
Arguments isalnum : simpl never.

Fixpoint number_span (is_float : bool) (l : text) : text * bool :=
  match l with
  | [] => ([], is_float)
  | c :: r =>
      if isdigit c || Ascii.eqb c DOT then
        if Ascii.eqb c DOT && is_float then ([], is_float)
        else
          let '(s, f) :=
            number_span (if Ascii.eqb c DOT then true else is_float) r in
          (c :: s, f)
      else ([], is_float)
  end.

Fixpoint string_body (q : ascii) (l : text) : text :=
  match l with
  | [] => []
  | c :: r =>
      if negb (Ascii.eqb c q) then
        if Ascii.eqb c BACKSLASH then
          match r with
          | d :: r' => c :: d :: string_body q r'
          | [] => [c]
          end
        else c :: string_body q r
      else []
  end.

Fixpoint block_body (l : text) : text :=
  match l with
  | [] => []
  | c :: r =>
      if Ascii.eqb c STAR && is_char (hd_error r) SLASH then [STAR; SLASH]
      else c :: block_body r
  end.

Definition string_close (q : ascii) (l : text) : text :=
  match l with
  | c :: _ => if Ascii.eqb c q then [c] else []
  | [] => []
  end.

(** The characters that [lex_string] reads after the opening quote. *)
Definition string_span (q : ascii) (l : text) : text :=
  let body := string_body q l in
  body ++ string_close q (skipn (length body) l).

(** The value of a token of type [ty] whose characters in the source are
    [span]. *)
Definition lexeme_value (ty : TokenType) (span : text) : text :=
  match ty with
  | NEWLINE => NEWLINE_VALUE
  | _ => span
  end.

Definition two_char_lookup (ch : ascii) (r : text) : option text :=
  match hd_error r with
  | Some nx => if in_words [ch; nx] multi_char_ops then Some [ch; nx] else None
  | None => None
  end.

(** The branch that fires on the text [l], the type of the token it emits
    and the characters of the source it reads. *)
Definition next_lexeme (l : text) : Branch * TokenType * text :=
  match l with
  | [] => (BUnknown, UNKNOWN, [])
  | ch :: r =>
      if Ascii.eqb ch NL then (BNewline, NEWLINE, [ch])
      else if Ascii.eqb ch HASH then
        (BPreprocessor, PREPROCESSOR, take_while not_newline l)
      else if Ascii.eqb ch SLASH && is_char (hd_error r) SLASH then
        (BLineComment, COMMENT, take_while not_newline l)
      else if Ascii.eqb ch SLASH && is_char (hd_error r) STAR then
        (BBlockComment, COMMENT, SLASH :: STAR :: block_body (tl r))
      else if Ascii.eqb ch HASH then
        (BHashComment, COMMENT, take_while not_newline l)
      else if isdigit ch then
        (BNumber, if snd (number_span false l) then FLOAT else INTEGER,
         fst (number_span false l))
      else if isalpha ch || Ascii.eqb ch UNDERSCORE then
        (BIdentifier,
         if in_words (take_while is_word_char l) TOKEN_TYPES_KEYWORD
         then KEYWORD else IDENTIFIER,
         take_while is_word_char l)
      else if in_chars ch [DQUOTE; SQUOTE] then
        (BString, STRING, ch :: string_span ch r)
      else
        match two_char_lookup ch r with
        | Some two_char => (BMultiOp, OPERATOR, two_char)
        | None =>
            if in_chars ch single_ops then (BSingleOp, OPERATOR, [ch])
            else if in_chars ch delimiters then (BDelimiter, DELIMITER, [ch])
            else (BUnknown, UNKNOWN, [ch])
        end
  end.

Definition lexeme_branch (l : text) : Branch := fst (fst (next_lexeme l)).
Definition lexeme_type (l : text) : TokenType := snd (fst (next_lexeme l)).
Definition lexeme_span (l : text) : text := snd (next_lexeme l).

(** The state in which the branch leaves the lexer. *)
Definition after_lexeme (self : Lexer) (l : text) : Lexer :=
  add_token (consume (lexeme_span l) self) (lexeme_type l)
    (lexeme_value (lexeme_type l) (lexeme_span l)) (line self) (column self).

Definition prefix_of (p l : text) : Prop := exists r, l = p ++ r.

(** A token together with the place it comes from: the offset of its first
    character in the source and the characters of the source it was read
    from. *)
Record Item : Set := mkItem {
  item_offset : nat;
  item_span : text;
  item_token : Token
}.

(** [Scanned off lc l items]: starting at offset [off] and (line, column)
    [lc] with the text [l] left, the loop reads [l] to its end as a run of
    horizontal whitespace followed by a lexeme, again and again, and emits
    the tokens of [items]. *)
Inductive Scanned : nat -> nat * nat -> text -> list Item -> Prop :=
| Scanned_end off lc ws :
    forallb is_hspace ws = true ->
    Scanned off lc ws []
| Scanned_lexeme off lc ws l rest items :
    forallb is_hspace ws = true ->
    l = lexeme_span l ++ rest ->
    lexeme_span l <> [] ->
    Scanned (off + length ws + length (lexeme_span l))
      (loc_after (loc_after lc ws) (lexeme_span l)) rest items ->
    Scanned off lc (ws ++ l)
      (mkItem (off + length ws) (lexeme_span l)
         (mkToken (lexeme_type l)
            (lexeme_value (lexeme_type l) (lexeme_span l))
            (fst (loc_after lc ws)) (snd (loc_after lc ws)))
       :: items).

(** The current character [ch], followed by [r], is not horizontal
    whitespace and matches none of the category rules of the dispatcher. *)
Definition matches_no_rule (ch : ascii) (r : text) : bool :=
  negb (is_hspace ch)
  && negb (Ascii.eqb ch NL)
  && negb (Ascii.eqb ch HASH)
  && negb (Ascii.eqb ch SLASH && is_char (hd_error r) SLASH)
  && negb (Ascii.eqb ch SLASH && is_char (hd_error r) STAR)
  && negb (isdigit ch)
  && negb (isalpha ch || Ascii.eqb ch UNDERSCORE)
  && negb (in_chars ch [DQUOTE; SQUOTE])
  && match two_char_lookup ch r with Some _ => false | None => true end
  && negb (in_chars ch single_ops)
  && negb (in_chars ch delimiters).

(** The token [t] was read from the characters [span] of the source: its
    value is [span], except for a [NEWLINE] token, which is read from the
    newline character and carries the escaped spelling. *)
Definition reads (t : Token) (span : text) : Prop :=
  (tok_type t = NEWLINE /\ span = [NL] /\ tok_value t = NEWLINE_VALUE)
  \/ (tok_type t <> NEWLINE /\ tok_value t = span).

(** [Accounted l items]: the text [l] is, from left to right, a run of
    horizontal whitespace and the span of the first item, a run of
    horizontal whitespace and the span of the second item, and so on, with
    a last run of horizontal whitespace behind the last item. *)
Inductive Accounted : text -> list Item -> Prop :=
| Accounted_end ws :
    forallb is_hspace ws = true ->
    Accounted ws []
| Accounted_token ws it rest items :
    forallb is_hspace ws = true ->
    item_span it <> [] ->
    reads (item_token it) (item_span it) ->
    Accounted rest items ->
    Accounted (ws ++ item_span it ++ rest) (it :: items).

(** The state in which an execution of the loop body ends. *)
Definition flow_state (f : Flow) : Lexer :=
  match f with
  | Break self => self
  | Continue _ self => self
  end.

Definition tok_loc (t : Token) : nat * nat := (tok_line t, tok_column t).

(** The lexicographic order on (line, column). *)
Definition loc_lt (a b : nat * nat) : Prop :=
  fst a < fst b \/ (fst a = fst b /\ snd a < snd b).

Definition loc_le (a b : nat * nat) : Prop := a = b \/ loc_lt a b.

(** The item's token starts at the item's offset of the source [src]: the
    offset is inside the source, the span is read from there, and the line
    and column of the token are those the cursor has at that offset. *)
Definition starts_at (src : text) (it : Item) : Prop :=
  item_offset it < length src
  /\ prefix_of (item_span it) (skipn (item_offset it) src)
  /\ item_span it <> []
  /\ reads (item_token it) (item_span it)
  /\ tok_loc (item_token it) = loc_after (1, 1) (firstn (item_offset it) src).

Definition all_ascii : text := map ascii_of_nat (seq 0 256).

(** The number lexeme in the words of the specification: a maximal run of
    digits and, when a [.] follows it, that [.] and one more maximal run of
    digits; the flag tells whether the [.] was taken. *)
Definition number_lexeme (l : text) : text * bool :=
  let int_part := take_while isdigit l in
  match drop_while isdigit l with
  | c :: r2 =>
      if Ascii.eqb c DOT
      then (int_part ++ DOT :: take_while isdigit r2, true)
      else (int_part, false)
  | [] => (int_part, false)
  end.

(** What is left of the text behind the number lexeme. *)
Definition number_rest (l : text) : text :=
  match drop_while isdigit l with
  | c :: r2 => if Ascii.eqb c DOT then drop_while isdigit r2 else c :: r2
  | [] => []
  end.

(** None of the rules that the dispatcher tries before the operator tables
    fires on the current character [ch] followed by [r]. *)
Definition reaches_operator_rules (ch : ascii) (r : text) : bool :=
  negb (is_hspace ch)
  && negb (Ascii.eqb ch NL)
  && negb (Ascii.eqb ch HASH)
  && negb (Ascii.eqb ch SLASH && is_char (hd_error r) SLASH)
  && negb (Ascii.eqb ch SLASH && is_char (hd_error r) STAR)
  && negb (isdigit ch)
  && negb (isalpha ch || Ascii.eqb ch UNDERSCORE)
  && negb (in_chars ch [DQUOTE; SQUOTE]).

(** The string lexeme in the words of the specification.
    [StringChars q l v closed]: after the opening quote [q], with the text
    [l] left, the scanner captures [v]; [closed] tells whether it stopped
    at the closing quote (which is then the last character of [v]) or at
    the end of the text. *)
Inductive StringChars (q : ascii) : text -> text -> bool -> Prop :=
| SC_end_of_input :
    StringChars q [] [] false
| SC_closing_quote r :
    StringChars q (q :: r) [q] true
| SC_backslash_last :
    BACKSLASH <> q ->
    StringChars q [BACKSLASH] [BACKSLASH] false
| SC_escape d r v closed :
    BACKSLASH <> q ->
    StringChars q r v closed ->
    StringChars q (BACKSLASH :: d :: r) (BACKSLASH :: d :: v) closed
| SC_plain c r v closed :
    c <> q -> c <> BACKSLASH ->
    StringChars q r v closed ->
    StringChars q (c :: r) (c :: v) closed.

(** Whether the string that opens with [q] and continues with [l] is
    closed by a quote. *)
Definition string_closed (q : ascii) (l : text) : bool :=
  match string_close q (skipn (length (string_body q l)) l) with
  | [] => false
  | _ :: _ => true
  end.

(** The pair [*/] sits at index [i] of the text [l]. *)
Definition star_slash_at (l : text) (i : nat) : Prop :=
  nth_error l i = Some STAR /\ nth_error l (S i) = Some SLASH.

(** The number of newline characters of a text. *)
Definition newlines (p : text) : nat := count_occ ascii_dec p NL.

(** The text [cur] is the last, unfinished line of the text [p]: what
    follows the last newline character of [p], or all of [p]. *)
Definition last_line_of (p cur : text) : Prop :=
  exists before,
    p = before ++ cur
    /\ ~ In NL cur
    /\ (before = [] \/ exists b, before = b ++ [NL]).

Definition out_loc (t : TokenOut) : nat * nat := (out_line t, out_column t).

(** The number of tokens of type [ty] in a list. *)
Definition count_type (ty : TokenType) (tokens : list Token) : nat :=
  length (filter (fun t => if TokenType_eq_dec (tok_type t) ty
                           then true else false) tokens).

(** The sub-scanner result [r] appends exactly one token of one of the
    types [tys] to the lexer [self], recorded at the line and column of
    [self]; the source is unchanged and the position has not decreased. *)
Definition emits_one (self : Lexer) (r : option Lexer)
    (tys : list TokenType) : Prop :=
  exists self' ty v,
    r = Some self'
    /\ In ty tys
    /\ tokens self' = tokens self ++ [mkToken ty v (line self) (column self)]
    /\ source self' = source self
    /\ pos self <= pos self'.

(** The decimal digits [0] to [9]. *)
Definition is_decimal_digit (c : ascii) : bool := in_range 48 57 c.

(** * Reasoning about the cursor *)

Section Cursor.

Lemma nth_error_hd_skipn (A : Type) (l : list A) (n : nat) :
  nth_error l n = hd_error (skipn n l).
Proof.
  revert n; induction l as [|x l IH]; intros [|n]; simpl; auto.
Qed.

Lemma skipn_succ_tl (A : Type) (l : list A) (n : nat) :
  skipn (n + 1) l = tl (skipn n l).
Proof.
  revert n; induction l as [|x l IH]; intros [|n]; simpl; auto.
Qed.

Lemma current_char_remaining self :
  current_char self = hd_error (remaining self).
Proof.
  unfold current_char, remaining.
  destruct (pos self <? length (source self)) eqn:E.
  - apply nth_error_hd_skipn.
  - apply Nat.ltb_ge in E. now rewrite skipn_all2.
Qed.

Lemma peek_char_remaining self :
  peek_char self = hd_error (tl (remaining self)).
Proof.
  unfold peek_char, remaining. rewrite <- skipn_succ_tl.
  destruct (pos self + 1 <? length (source self)) eqn:E.
  - apply nth_error_hd_skipn.
  - apply Nat.ltb_ge in E. now rewrite skipn_all2.
Qed.

Lemma budget_remaining self : budget self = length (remaining self).
Proof. unfold budget, remaining. now rewrite length_skipn. Qed.

Lemma remaining_advance self : remaining (advance self) = tl (remaining self).
Proof.
  unfold advance, remaining.
  destruct (is_char (current_char self) NL); simpl; apply skipn_succ_tl.
Qed.

Lemma consume_nil self : consume [] self = self.
Proof.
  destruct self; unfold consume; simpl. now rewrite Nat.add_0_r.
Qed.

Lemma consume_app p q self : consume (p ++ q) self = consume q (consume p self).
Proof.
  unfold consume, loc_after; simpl.
  rewrite fold_left_app, length_app, Nat.add_assoc.
  now rewrite <- surjective_pairing.
Qed.

Lemma advance_consume self c r :
  remaining self = c :: r -> advance self = consume [c] self.
Proof.
  intros E. unfold advance, consume.
  rewrite current_char_remaining, E. simpl. unfold step_loc; simpl.
  now destruct (Ascii.eqb c NL).
Qed.

Lemma consume_cons self c r p :
  remaining self = c :: r -> consume (c :: p) self = consume p (advance self).
Proof.
  intros E. rewrite (advance_consume _ _ _ E).
  now rewrite <- consume_app.
Qed.

Lemma remaining_consume self p r :
  remaining self = p ++ r -> remaining (consume p self) = r.
Proof.
  unfold remaining, consume; simpl. intros E.
  rewrite Nat.add_comm, <- skipn_skipn, E.
  now rewrite skipn_app, skipn_all, Nat.sub_diag.
Qed.

Lemma advance_add_token self ty v l c :
  advance (add_token self ty v l c) = add_token (advance self) ty v l c.
Proof.
  unfold advance. change (current_char (add_token self ty v l c))
    with (current_char self).
  now destruct (is_char (current_char self) NL).
Qed.

Lemma take_drop_while f l : take_while f l ++ drop_while f l = l.
Proof.
  induction l as [|c r IH]; simpl; auto.
  destruct (f c); simpl; congruence.
Qed.

End Cursor.

(** * What each loop reads

    For every loop of the lexer, a function on the text that is left computes
    the characters the loop reads; the loop, given enough fuel, advances over
    exactly these and appends them to its accumulator. *)

Section Loops.

Ltac at_cursor self c r E :=
  rewrite current_char_remaining;
  destruct (remaining self) as [|c r] eqn:E; simpl.

Lemma skip_whitespace_loop_spec fuel : forall self,
  length (remaining self) <= fuel ->
  skip_whitespace_loop fuel self
  = Some (consume (take_while is_hspace (remaining self)) self).
Proof.
  induction fuel as [|fuel IH]; intros self Hf.
  - destruct (remaining self) as [|c r] eqn:E; [|simpl in Hf; lia].
    simpl. rewrite current_char_remaining, E. simpl.
    now rewrite consume_nil.
  - simpl. at_cursor self c r E; [now rewrite consume_nil|].
    change (in_chars c hspace) with (is_hspace c). destruct (is_hspace c).
    + rewrite IH by (rewrite remaining_advance, E; simpl in *; lia).
      rewrite remaining_advance, E. simpl.
      now rewrite (consume_cons _ _ _ _ E).
    + now rewrite consume_nil.
Qed.

Lemma skip_whitespace_spec self :
  skip_whitespace self
  = Some (consume (take_while is_hspace (remaining self)) self).
Proof.
  apply skip_whitespace_loop_spec. rewrite budget_remaining. lia.
Qed.

Lemma take_while_loop_spec (f : ascii -> bool)
    (loop : nat -> Lexer -> text -> option (Lexer * text)) :
  (forall fuel self acc,
      loop fuel self acc
      = match current_char self with
        | Some c =>
            if f c then
              match fuel with
              | 0 => None
              | S fuel' => loop fuel' (advance self) (acc ++ [c])
              end
            else Some (self, acc)
        | None => Some (self, acc)
        end) ->
  forall fuel self acc,
    length (remaining self) <= fuel ->
    loop fuel self acc
    = Some (consume (take_while f (remaining self)) self,
            acc ++ take_while f (remaining self)).
Proof.
  intros Hloop. induction fuel as [|fuel IH]; intros self acc Hf.
  - destruct (remaining self) as [|c r] eqn:E; [|simpl in Hf; lia].
    rewrite Hloop, current_char_remaining, E. simpl.
    now rewrite consume_nil, app_nil_r.
  - rewrite Hloop. at_cursor self c r E;
      [now rewrite consume_nil, app_nil_r|].
    destruct (f c).
    + rewrite IH by (rewrite remaining_advance, E; simpl in *; lia).
      rewrite remaining_advance, E. simpl.
      now rewrite (consume_cons _ _ _ _ E), <- app_assoc.
    + now rewrite consume_nil, app_nil_r.
Qed.

Lemma until_newline_loop_spec fuel self acc :
  length (remaining self) <= fuel ->
  until_newline_loop fuel self acc
  = Some (consume (take_while not_newline (remaining self)) self,
          acc ++ take_while not_newline (remaining self)).
Proof.
  apply (take_while_loop_spec not_newline until_newline_loop).
  intros [|f] s a; reflexivity.
Qed.

Lemma lex_identifier_loop_spec fuel self acc :
  length (remaining self) <= fuel ->
  lex_identifier_loop fuel self acc
  = Some (consume (take_while is_word_char (remaining self)) self,
          acc ++ take_while is_word_char (remaining self)).
Proof.
  apply (take_while_loop_spec is_word_char lex_identifier_loop).
  intros [|f] s a; reflexivity.
Qed.

Lemma lex_number_loop_spec fuel : forall self acc is_float,
  length (remaining self) <= fuel ->
  lex_number_loop fuel self acc is_float
  = Some (consume (fst (number_span is_float (remaining self))) self,
          acc ++ fst (number_span is_float (remaining self)),
          snd (number_span is_float (remaining self))).
Proof.
  induction fuel as [|fuel IH]; intros self acc is_float Hf.
  - destruct (remaining self) as [|c r] eqn:E; [|simpl in Hf; lia].
    simpl. rewrite current_char_remaining, E. simpl.
    now rewrite consume_nil, app_nil_r.
  - simpl. at_cursor self c r E; [now rewrite consume_nil, app_nil_r|].
    destruct (isdigit c || Ascii.eqb c DOT);
      [|now rewrite consume_nil, app_nil_r].
    destruct (Ascii.eqb c DOT && is_float);
      [now rewrite consume_nil, app_nil_r|].
    rewrite IH by (rewrite remaining_advance, E; simpl in *; lia).
    rewrite remaining_advance, E. simpl.
    destruct (number_span (if Ascii.eqb c DOT then true else is_float) r)
      as [s f]. simpl.
    now rewrite (consume_cons _ _ _ _ E), <- app_assoc.
Qed.

Lemma lex_string_loop_spec fuel q : forall self acc,
  length (remaining self) <= fuel ->
  lex_string_loop fuel self q acc
  = Some (consume (string_body q (remaining self)) self,
          acc ++ string_body q (remaining self)).
Proof.
  induction fuel as [|fuel IH]; intros self acc Hf.
  - destruct (remaining self) as [|c r] eqn:E; [|simpl in Hf; lia].
    simpl. rewrite current_char_remaining, E. simpl.
    now rewrite consume_nil, app_nil_r.
  - simpl. at_cursor self c r E; [now rewrite consume_nil, app_nil_r|].
    destruct (negb (Ascii.eqb c q)); [|now rewrite consume_nil, app_nil_r].
    assert (Ea : remaining (advance self) = r)
      by now rewrite remaining_advance, E.
    destruct (Ascii.eqb c BACKSLASH).
    + rewrite (current_char_remaining (advance self)), Ea.
      destruct r as [|d r']; simpl.
      * rewrite IH by (rewrite Ea; simpl; lia). rewrite Ea. simpl.
        rewrite consume_nil, app_nil_r.
        now rewrite (consume_cons _ _ _ _ E), consume_nil.
      * rewrite IH
          by (rewrite remaining_advance, Ea; simpl in *; lia).
        rewrite remaining_advance, Ea. simpl.
        rewrite (consume_cons _ _ _ _ E), (consume_cons _ _ _ _ Ea).
        now rewrite <- !app_assoc.
    + rewrite current_char_remaining, E. simpl.
      rewrite IH by (rewrite Ea; simpl in *; lia).
      rewrite Ea, (consume_cons _ _ _ _ E).
      now rewrite <- app_assoc.
Qed.

Lemma lex_multi_comment_loop_spec fuel : forall self acc,
  length (remaining self) <= fuel ->
  lex_multi_comment_loop fuel self acc
  = Some (consume (block_body (remaining self)) self,
          acc ++ block_body (remaining self)).
Proof.
  induction fuel as [|fuel IH]; intros self acc Hf.
  - destruct (remaining self) as [|c r] eqn:E; [|simpl in Hf; lia].
    simpl. rewrite current_char_remaining, E. simpl.
    now rewrite consume_nil, app_nil_r.
  - simpl. at_cursor self c r E; [now rewrite consume_nil, app_nil_r|].
    rewrite peek_char_remaining, E. simpl.
    destruct (Ascii.eqb c STAR && is_char (hd_error r) SLASH) eqn:B.
    + apply andb_true_iff in B as [Bc Bd].
      apply Ascii.eqb_eq in Bc. subst c.
      destruct r as [|d r']; [discriminate|]. simpl in Bd.
      apply Ascii.eqb_eq in Bd. subst d.
      assert (Ea : remaining (advance self) = SLASH :: r')
        by now rewrite remaining_advance, E.
      now rewrite (consume_cons _ _ _ _ E), (consume_cons _ _ _ _ Ea),
        consume_nil.
    + rewrite IH by (rewrite remaining_advance, E; simpl in *; lia).
      rewrite remaining_advance, E. simpl.
      now rewrite (consume_cons _ _ _ _ E), <- app_assoc.
Qed.

End Loops.

(** * What each sub-scanner reads and emits *)

Section Scanners.

Lemma lex_newline_spec self c r :
  remaining self = c :: r ->
  lex_newline self
  = add_token (consume [c] self) NEWLINE NEWLINE_VALUE (line self)
      (column self).
Proof.
  intros E. unfold lex_newline.
  now rewrite advance_add_token, (advance_consume _ _ _ E).
Qed.

Lemma lex_preprocessor_spec self :
  lex_preprocessor self
  = Some (add_token (consume (take_while not_newline (remaining self)) self)
            PREPROCESSOR (take_while not_newline (remaining self))
            (line self) (column self)).
Proof.
  unfold lex_preprocessor.
  rewrite until_newline_loop_spec by (rewrite budget_remaining; lia).
  reflexivity.
Qed.

Lemma lex_single_comment_spec self :
  lex_single_comment self
  = Some (add_token (consume (take_while not_newline (remaining self)) self)
            COMMENT (take_while not_newline (remaining self))
            (line self) (column self)).
Proof.
  unfold lex_single_comment.
  rewrite until_newline_loop_spec by (rewrite budget_remaining; lia).
  reflexivity.
Qed.

Lemma lex_identifier_spec self :
  let word := take_while is_word_char (remaining self) in
  lex_identifier self
  = Some (add_token (consume word self)
            (if in_words word TOKEN_TYPES_KEYWORD
             then KEYWORD else IDENTIFIER)
            word (line self) (column self)).
Proof.
  unfold lex_identifier.
  rewrite lex_identifier_loop_spec by (rewrite budget_remaining; lia).
  simpl.
  now destruct (in_words (take_while is_word_char (remaining self))
                  TOKEN_TYPES_KEYWORD).
Qed.

Lemma lex_number_spec self :
  let span := number_span false (remaining self) in
  lex_number self
  = Some (add_token (consume (fst span) self)
            (if snd span then FLOAT else INTEGER)
            (fst span) (line self) (column self)).
Proof.
  unfold lex_number.
  rewrite lex_number_loop_spec by (rewrite budget_remaining; lia).
  reflexivity.
Qed.

Lemma string_body_prefix q : forall n l,
  length l <= n ->
  string_body q l ++ skipn (length (string_body q l)) l = l.
Proof.
  induction n as [|n IH]; intros [|c r] Hl; simpl in *; try lia; auto.
  destruct (negb (Ascii.eqb c q)); simpl; auto.
  destruct (Ascii.eqb c BACKSLASH).
  - destruct r as [|d r']; simpl; auto.
    f_equal. f_equal. apply IH. simpl in Hl. lia.
  - simpl. f_equal. apply IH. lia.
Qed.

Lemma lex_string_spec self q c r :
  remaining self = c :: r ->
  lex_string self q
  = Some (add_token (consume (c :: string_span q r) self) STRING
            (q :: string_span q r) (line self) (column self)).
Proof.
  intros E. unfold lex_string, string_span.
  assert (Ea : remaining (advance self) = r)
    by now rewrite remaining_advance, E.
  rewrite lex_string_loop_spec by (rewrite budget_remaining; lia).
  rewrite Ea. set (body := string_body q r).
  assert (Eb : remaining (consume body (advance self))
               = skipn (length body) r).
  { apply remaining_consume. rewrite Ea. symmetry.
    apply (string_body_prefix q (length r)). lia. }
  rewrite current_char_remaining, Eb.
  rewrite (consume_cons _ _ _ _ E), consume_app.
  destruct (skipn (length body) r) as [|d r'] eqn:Er; simpl.
  - now rewrite app_nil_r, consume_nil.
  - destruct (Ascii.eqb d q).
    + now rewrite (advance_consume _ _ _ Eb).
    + now rewrite app_nil_r, consume_nil.
Qed.

Lemma lex_multi_comment_spec self a b r :
  remaining self = a :: b :: r ->
  lex_multi_comment self
  = Some (add_token (consume (a :: b :: block_body r) self) COMMENT
            (SLASH :: STAR :: block_body r) (line self) (column self)).
Proof.
  intros E. unfold lex_multi_comment.
  assert (Ea : remaining (advance self) = b :: r)
    by now rewrite remaining_advance, E.
  assert (Eb : remaining (advance (advance self)) = r)
    by now rewrite remaining_advance, Ea.
  rewrite lex_multi_comment_loop_spec by (rewrite budget_remaining; lia).
  rewrite Eb, (consume_cons _ _ _ _ E), (consume_cons _ _ _ _ Ea).
  reflexivity.
Qed.

End Scanners.

(** * The loop body as a function of the text that is left *)

Section Body.

Lemma two_char_op_spec self ch r :
  remaining self = ch :: r -> two_char_op self ch = two_char_lookup ch r.
Proof.
  intros E. unfold two_char_op, two_char_lookup.
  now rewrite peek_char_remaining, E.
Qed.

Lemma dispatch_spec self ch r :
  remaining self = ch :: r ->
  dispatch self ch
  = Some (Continue (lexeme_branch (ch :: r)) (after_lexeme self (ch :: r))).
Proof.
  intros E.
  unfold dispatch, after_lexeme, lexeme_branch, lexeme_type, lexeme_span,
    next_lexeme.
  rewrite peek_char_remaining, (two_char_op_spec _ _ _ E), E.
  cbn [tl].
  destruct (Ascii.eqb ch NL).
  { now rewrite (lex_newline_spec _ _ _ E). }
  destruct (Ascii.eqb ch HASH).
  { now rewrite lex_preprocessor_spec, E. }
  destruct (Ascii.eqb ch SLASH && is_char (hd_error r) SLASH).
  { now rewrite lex_single_comment_spec, E. }
  destruct (Ascii.eqb ch SLASH && is_char (hd_error r) STAR) eqn:B.
  { apply andb_true_iff in B as [Bc Bd].
    apply Ascii.eqb_eq in Bc. subst ch.
    destruct r as [|d r']; [discriminate|]. simpl in Bd.
    apply Ascii.eqb_eq in Bd. subst d.
    now rewrite (lex_multi_comment_spec _ _ _ _ E). }
  destruct (isdigit ch).
  { rewrite lex_number_spec, E. cbn [continue_with option_map].
    now destruct (snd (number_span false (ch :: r))). }
  destruct (isalpha ch || Ascii.eqb ch UNDERSCORE).
  { rewrite lex_identifier_spec, E. cbn [continue_with option_map].
    now destruct (in_words (take_while is_word_char (ch :: r))
                    TOKEN_TYPES_KEYWORD). }
  destruct (in_chars ch [DQUOTE; SQUOTE]).
  { now rewrite (lex_string_spec _ _ _ _ E). }
  unfold two_char_lookup.
  destruct r as [|nx r']; cbn [hd_error].
  - destruct (in_chars ch single_ops); [|destruct (in_chars ch delimiters)];
      now rewrite advance_add_token, (advance_consume _ _ _ E).
  - destruct (in_words [ch; nx] multi_char_ops).
    + rewrite !advance_add_token.
      assert (Ea : remaining (advance self) = nx :: r')
        by now rewrite remaining_advance, E.
      cbn [fst snd lexeme_value].
      now rewrite (consume_cons _ _ _ _ E), (consume_cons _ _ _ _ Ea),
        consume_nil.
    + destruct (in_chars ch single_ops); [|destruct (in_chars ch delimiters)];
        now rewrite advance_add_token, (advance_consume _ _ _ E).
Qed.

(** One execution of the loop body: skip the horizontal whitespace, then
    stop at the end of the source or run the branch of the next lexeme. *)
Lemma tokenize_body_spec self :
  let ws := take_while is_hspace (remaining self) in
  let l := drop_while is_hspace (remaining self) in
  tokenize_body self
  = Some (match l with
          | [] => Break (consume ws self)
          | _ :: _ =>
              Continue (lexeme_branch l) (after_lexeme (consume ws self) l)
          end).
Proof.
  intros ws l. unfold tokenize_body. rewrite skip_whitespace_spec.
  fold ws.
  assert (E : remaining (consume ws self) = l).
  { apply remaining_consume. symmetry. apply take_drop_while. }
  rewrite current_char_remaining, E.
  destruct l as [|ch r]; cbn [hd_error]; [reflexivity|].
  now apply dispatch_spec.
Qed.

End Body.

(** * Every lexeme is a non-empty prefix of the text that is left *)

Section Prefixes.

Lemma prefix_of_nil l : prefix_of [] l.
Proof. now exists l. Qed.

Lemma prefix_of_cons c p l : prefix_of p l -> prefix_of (c :: p) (c :: l).
Proof. intros [r ->]. now exists r. Qed.

Lemma prefix_of_skipn p l : prefix_of p l -> l = p ++ skipn (length p) l.
Proof.
  intros [r ->]. now rewrite skipn_app, skipn_all, Nat.sub_diag.
Qed.

Lemma take_while_prefix f l : prefix_of (take_while f l) l.
Proof. exists (drop_while f l). symmetry. apply take_drop_while. Qed.

Lemma number_span_prefix : forall l is_float,
  prefix_of (fst (number_span is_float l)) l.
Proof.
  induction l as [|c r IH]; intros is_float; simpl.
  - apply prefix_of_nil.
  - destruct (isdigit c || Ascii.eqb c DOT); [|apply prefix_of_nil].
    destruct (Ascii.eqb c DOT && is_float); [apply prefix_of_nil|].
    specialize (IH (if Ascii.eqb c DOT then true else is_float)).
    destruct (number_span (if Ascii.eqb c DOT then true else is_float) r).
    now apply prefix_of_cons.
Qed.

Lemma block_body_prefix : forall l, prefix_of (block_body l) l.
Proof.
  induction l as [|c r IH]; simpl.
  - apply prefix_of_nil.
  - destruct (Ascii.eqb c STAR && is_char (hd_error r) SLASH) eqn:B.
    + apply andb_true_iff in B as [Bc Bd].
      apply Ascii.eqb_eq in Bc. subst c.
      destruct r as [|d r']; [discriminate|]. simpl in Bd.
      apply Ascii.eqb_eq in Bd. subst d. now exists r'.
    + now apply prefix_of_cons.
Qed.

Lemma string_span_prefix q l : prefix_of (string_span q l) l.
Proof.
  unfold string_span. set (body := string_body q l).
  pose proof (string_body_prefix q (length l) l (le_n _)) as Hb.
  fold body in Hb.
  destruct (skipn (length body) l) as [|d r] eqn:Er; simpl.
  - exists []. rewrite app_nil_r. now symmetry.
  - destruct (Ascii.eqb d q).
    + exists r. rewrite <- app_assoc. now symmetry.
    + exists (d :: r). rewrite app_nil_r. now symmetry.
Qed.

Lemma isalpha_isalnum c : isalpha c = true -> isalnum c = true.
Proof. unfold isalnum. now intros ->. Qed.

Lemma lexeme_span_prefix l : prefix_of (lexeme_span l) l.
Proof.
  unfold lexeme_span, next_lexeme.
  destruct l as [|ch r]; [apply prefix_of_nil|].
  destruct (Ascii.eqb ch NL); [now exists r|].
  destruct (Ascii.eqb ch HASH); [apply take_while_prefix|].
  destruct (Ascii.eqb ch SLASH && is_char (hd_error r) SLASH);
    [apply take_while_prefix|].
  destruct (Ascii.eqb ch SLASH && is_char (hd_error r) STAR) eqn:B.
  { apply andb_true_iff in B as [Bc Bd].
    apply Ascii.eqb_eq in Bc. subst ch.
    destruct r as [|d r']; [discriminate|]. simpl in Bd.
    apply Ascii.eqb_eq in Bd. subst d.
    do 2 apply prefix_of_cons. apply block_body_prefix. }
  destruct (isdigit ch); [apply number_span_prefix|].
  destruct (isalpha ch || Ascii.eqb ch UNDERSCORE);
    [apply take_while_prefix|].
  destruct (in_chars ch [DQUOTE; SQUOTE]).
  { apply prefix_of_cons, string_span_prefix. }
  unfold two_char_lookup.
  destruct r as [|nx r']; cbn [hd_error].
  - destruct (in_chars ch single_ops); [|destruct (in_chars ch delimiters)];
      now exists [].
  - destruct (in_words [ch; nx] multi_char_ops); [now exists r'|].
    destruct (in_chars ch single_ops); [|destruct (in_chars ch delimiters)];
      now exists (nx :: r').
Qed.

Lemma lexeme_span_nonempty ch r : lexeme_span (ch :: r) <> [].
Proof.
  unfold lexeme_span, next_lexeme.
  destruct (Ascii.eqb ch NL); [discriminate|].
  destruct (Ascii.eqb ch HASH) eqn:H1.
  { apply Ascii.eqb_eq in H1. subst ch. simpl. discriminate. }
  destruct (Ascii.eqb ch SLASH && is_char (hd_error r) SLASH) eqn:H2.
  { apply andb_true_iff in H2 as [Bc _].
    apply Ascii.eqb_eq in Bc. subst ch. simpl. discriminate. }
  destruct (Ascii.eqb ch SLASH && is_char (hd_error r) STAR);
    [discriminate|].
  destruct (isdigit ch) eqn:H3.
  { cbn [snd number_span]. rewrite H3. cbn [orb andb].
    rewrite andb_false_r.
    now destruct (number_span (if Ascii.eqb ch DOT then true else false) r). }
  destruct (isalpha ch || Ascii.eqb ch UNDERSCORE) eqn:H4.
  { cbn [snd take_while]. unfold is_word_char.
    apply orb_true_iff in H4 as [H4|H4].
    - rewrite (isalpha_isalnum _ H4). cbn [orb]. discriminate.
    - rewrite H4, orb_true_r. discriminate. }
  destruct (in_chars ch [DQUOTE; SQUOTE]); [discriminate|].
  unfold two_char_lookup.
  destruct r as [|nx r']; cbn [hd_error].
  - destruct (in_chars ch single_ops); [|destruct (in_chars ch delimiters)];
      discriminate.
  - destruct (in_words [ch; nx] multi_char_ops); [discriminate|].
    destruct (in_chars ch single_ops); [|destruct (in_chars ch delimiters)];
      discriminate.
Qed.

End Prefixes.

(** * The run of the tokenize loop *)

Section Run.

Lemma take_while_forallb f l : forallb f (take_while f l) = true.
Proof.
  induction l as [|c r IH]; simpl; auto.
  destruct (f c) eqn:E; simpl; auto. now rewrite E.
Qed.

Lemma loop_guard self :
  (pos self <? length (source self))
  = match remaining self with [] => false | _ :: _ => true end.
Proof.
  pose proof (budget_remaining self) as Hb. unfold budget in Hb.
  destruct (remaining self) as [|c r]; simpl in Hb.
  - apply Nat.ltb_ge. lia.
  - apply Nat.ltb_lt. lia.
Qed.

Lemma remaining_add_token self ty v l c :
  remaining (add_token self ty v l c) = remaining self.
Proof. reflexivity. Qed.

Lemma loc_consume p self :
  (line (consume p self), column (consume p self))
  = loc_after (line self, column self) p.
Proof. unfold consume; simpl. symmetry. apply surjective_pairing. Qed.

Lemma pos_after_lexeme ws self l :
  pos (after_lexeme (consume ws self) l)
  = pos self + length ws + length (lexeme_span l).
Proof. reflexivity. Qed.

Lemma loc_after_lexeme ws self l :
  (line (after_lexeme (consume ws self) l),
   column (after_lexeme (consume ws self) l))
  = loc_after (loc_after (line self, column self) ws) (lexeme_span l).
Proof.
  unfold after_lexeme.
  change (line (add_token ?s _ _ _ _)) with (line s).
  change (column (add_token ?s _ _ _ _)) with (column s).
  now rewrite !loc_consume.
Qed.

Lemma tokenize_loop_scanned fuel : forall self,
  length (remaining self) <= fuel ->
  exists self' items,
    tokenize_loop fuel self = Some self'
    /\ tokens self' = tokens self ++ map item_token items
    /\ Scanned (pos self) (line self, column self) (remaining self) items
    /\ source self' = source self
    /\ remaining self' = [].
Proof.
  induction fuel as [|fuel IH]; intros self Hf.
  - destruct (remaining self) as [|c r] eqn:E; [|simpl in Hf; lia].
    exists self, []. simpl. rewrite loop_guard, E, app_nil_r.
    repeat split; auto. now apply Scanned_end.
  - cbn [tokenize_loop]. rewrite loop_guard.
    destruct (remaining self) as [|c0 r0] eqn:E.
    { exists self, []. cbn [map]. rewrite app_nil_r.
      repeat split; auto. now apply Scanned_end. }
    rewrite tokenize_body_spec, E.
    pose proof (take_drop_while is_hspace (c0 :: r0)) as Hsplit.
    pose proof (take_while_forallb is_hspace (c0 :: r0)) as Hws.
    set (ws := take_while is_hspace (c0 :: r0)) in *.
    destruct (drop_while is_hspace (c0 :: r0)) as [|ch r] eqn:D.
    { exists (consume ws self), []. cbn [map].
      rewrite app_nil_r in *. repeat split; auto.
      - rewrite <- Hsplit. now apply Scanned_end.
      - apply remaining_consume. rewrite E, app_nil_r. now symmetry. }
    set (l := ch :: r) in *.
    pose proof (prefix_of_skipn _ _ (lexeme_span_prefix l)) as Hl.
    pose proof (lexeme_span_nonempty ch r) as Hne. fold l in Hne.
    set (rest := skipn (length (lexeme_span l)) l) in *.
    assert (Er : remaining (after_lexeme (consume ws self) l) = rest).
    { unfold after_lexeme. rewrite remaining_add_token.
      apply remaining_consume. rewrite <- Hl.
      apply remaining_consume. now rewrite E. }
    destruct (IH (after_lexeme (consume ws self) l))
      as (self' & items & Hrun & Htok & Hsc & Hsrc & Hrem).
    { rewrite Er. apply (f_equal (@length ascii)) in Hsplit, Hl.
      rewrite length_app in Hsplit, Hl.
      assert (0 < length (lexeme_span l))
        by (destruct (lexeme_span l); [congruence|simpl; lia]).
      lia. }
    rewrite Er, pos_after_lexeme, loc_after_lexeme in Hsc.
    exists self',
      (mkItem (pos self + length ws) (lexeme_span l)
         (mkToken (lexeme_type l)
            (lexeme_value (lexeme_type l) (lexeme_span l))
            (fst (loc_after (line self, column self) ws))
            (snd (loc_after (line self, column self) ws)))
       :: items).
    split; [exact Hrun|].
    split; [|split; [|split]]; auto.
    + rewrite Htok. unfold after_lexeme, add_token, consume.
      cbn [tokens map item_token]. now rewrite <- app_assoc.
    + rewrite <- Hsplit. now apply Scanned_lexeme with (rest := rest).
Qed.

End Run.

(** * One iteration, seen from the text in front of the cursor *)

Section Iteration.

Lemma is_hspace_cases c :
  is_hspace c = true -> c = SPACE \/ c = TAB \/ c = CR.
Proof.
  unfold is_hspace, in_chars, hspace. cbn [existsb].
  rewrite !orb_true_iff, !Ascii.eqb_eq. intuition discriminate.
Qed.

Lemma loc_after_hspace ws : forall lc,
  forallb is_hspace ws = true ->
  loc_after lc ws = (fst lc, snd lc + length ws).
Proof.
  induction ws as [|c ws IH]; intros [l k] H; simpl in *.
  - now rewrite Nat.add_0_r.
  - apply andb_true_iff in H as [Hc Hws].
    rewrite IH by assumption.
    destruct (is_hspace_cases c Hc) as [-> | [-> | ->]]; simpl;
      f_equal; lia.
Qed.

Lemma take_while_stop f ws c r :
  forallb f ws = true -> f c = false -> take_while f (ws ++ c :: r) = ws.
Proof.
  induction ws as [|x ws IH]; simpl; intros H Hc.
  - now rewrite Hc.
  - apply andb_true_iff in H as [-> Hws]. now rewrite IH.
Qed.

Lemma drop_while_stop f ws c r :
  forallb f ws = true -> f c = false ->
  drop_while f (ws ++ c :: r) = c :: r.
Proof.
  induction ws as [|x ws IH]; simpl; intros H Hc.
  - now rewrite Hc.
  - apply andb_true_iff in H as [-> Hws]. now rewrite IH.
Qed.

(** The iteration that finds the lexeme [ch :: r] after the horizontal
    whitespace [ws]. *)
Lemma tokenize_body_lexeme self ws ch r :
  forallb is_hspace ws = true ->
  is_hspace ch = false ->
  remaining self = ws ++ ch :: r ->
  exists self',
    tokenize_body self = Some (Continue (lexeme_branch (ch :: r)) self')
    /\ tokens self'
       = tokens self
         ++ [mkToken (lexeme_type (ch :: r))
               (lexeme_value (lexeme_type (ch :: r))
                  (lexeme_span (ch :: r)))
               (line self) (column self + length ws)]
    /\ source self' = source self
    /\ pos self' = pos self + length ws + length (lexeme_span (ch :: r))
    /\ remaining self' = skipn (length (lexeme_span (ch :: r))) (ch :: r)
    /\ (line self', column self')
       = loc_after (line self, column self + length ws)
           (lexeme_span (ch :: r)).
Proof.
  intros Hws Hch E.
  exists (after_lexeme (consume ws self) (ch :: r)).
  rewrite tokenize_body_spec, E.
  rewrite (take_while_stop _ _ _ _ Hws Hch),
    (drop_while_stop _ _ _ _ Hws Hch).
  split; [reflexivity|].
  split.
  { unfold after_lexeme, add_token, consume. cbn [tokens line column].
    now rewrite (loc_after_hspace _ _ Hws). }
  split; [reflexivity|]. split; [reflexivity|]. split.
  - unfold after_lexeme. rewrite remaining_add_token.
    apply remaining_consume.
    rewrite <- (prefix_of_skipn _ _ (lexeme_span_prefix (ch :: r))).
    now apply remaining_consume.
  - rewrite loc_after_lexeme. now rewrite (loc_after_hspace _ _ Hws).
Qed.

Lemma lex_scanned src :
  exists items,
    lex src = Some (map item_token items) /\ Scanned 0 (1, 1) src items.
Proof.
  destruct (tokenize_loop_scanned (budget (Lexer_init src)) (Lexer_init src))
    as (self' & items & Hrun & Htok & Hsc & _).
  { rewrite budget_remaining. lia. }
  exists items. unfold lex, tokenize. rewrite Hrun. cbn [option_map].
  split; [now rewrite Htok|exact Hsc].
Qed.

End Iteration.

(** * Facts about single lexemes *)

Section Lexemes.

Lemma lexeme_span_head ch r : hd_error (lexeme_span (ch :: r)) = Some ch.
Proof.
  pose proof (lexeme_span_nonempty ch r) as Hne.
  destruct (lexeme_span_prefix (ch :: r)) as [rest Hp].
  destruct (lexeme_span (ch :: r)) as [|c s]; [congruence|].
  simpl in *. congruence.
Qed.

Lemma lexeme_newline r : next_lexeme (NL :: r) = (BNewline, NEWLINE, [NL]).
Proof. reflexivity. Qed.

Lemma lexeme_hash r :
  next_lexeme (HASH :: r)
  = (BPreprocessor, PREPROCESSOR, HASH :: take_while not_newline r).
Proof. reflexivity. Qed.

Lemma lexeme_line_comment r :
  next_lexeme (SLASH :: SLASH :: r)
  = (BLineComment, COMMENT, SLASH :: SLASH :: take_while not_newline r).
Proof. reflexivity. Qed.

Lemma lexeme_branch_not_hash_comment l : lexeme_branch l <> BHashComment.
Proof.
  unfold lexeme_branch, next_lexeme.
  destruct l as [|ch r]; [discriminate|].
  destruct (Ascii.eqb ch NL); [discriminate|].
  destruct (Ascii.eqb ch HASH); [discriminate|].
  destruct (Ascii.eqb ch SLASH && is_char (hd_error r) SLASH);
    [discriminate|].
  destruct (Ascii.eqb ch SLASH && is_char (hd_error r) STAR);
    [discriminate|].
  destruct (isdigit ch); [discriminate|].
  destruct (isalpha ch || Ascii.eqb ch UNDERSCORE); [discriminate|].
  destruct (in_chars ch [DQUOTE; SQUOTE]); [discriminate|].
  destruct (two_char_lookup ch r); [discriminate|].
  destruct (in_chars ch single_ops); [discriminate|].
  destruct (in_chars ch delimiters); discriminate.
Qed.

Lemma lexeme_value_hash ch r :
  hd_error (lexeme_value (lexeme_type (ch :: r)) (lexeme_span (ch :: r)))
  = Some HASH ->
  lexeme_type (ch :: r) = PREPROCESSOR.
Proof.
  intros H.
  assert (Hs : lexeme_type (ch :: r) <> NEWLINE ->
               lexeme_type (ch :: r) = PREPROCESSOR).
  { intros Hn.
    assert (Hv : lexeme_value (lexeme_type (ch :: r))
                   (lexeme_span (ch :: r)) = lexeme_span (ch :: r))
      by (destruct (lexeme_type (ch :: r)) eqn:T; simpl; congruence).
    rewrite Hv, lexeme_span_head in H. injection H as ->.
    unfold lexeme_type. now rewrite lexeme_hash. }
  destruct (lexeme_type (ch :: r)) eqn:T;
    solve [apply Hs; discriminate | cbn in H; discriminate H].
Qed.

Lemma not_newline_take r : ~ In NL (take_while not_newline r).
Proof.
  induction r as [|c r IH]; simpl; auto.
  destruct (not_newline c) eqn:E; simpl; auto.
  intros [->|H]; auto. discriminate E.
Qed.

Lemma not_newline_drop r :
  drop_while not_newline r = []
  \/ exists r', drop_while not_newline r = NL :: r'.
Proof.
  induction r as [|c r IH]; simpl; auto.
  destruct (not_newline c) eqn:E; auto.
  right. exists r. unfold not_newline in E.
  apply negb_false_iff, Ascii.eqb_eq in E. now subst.
Qed.

Lemma skipn_take_while f l :
  skipn (length (take_while f l)) l = drop_while f l.
Proof.
  rewrite <- (take_drop_while f l) at 2.
  now rewrite skipn_app, skipn_all, Nat.sub_diag.
Qed.

Lemma Scanned_Forall (P : Token -> Prop) :
  (forall ch r l c,
      P (mkToken (lexeme_type (ch :: r))
           (lexeme_value (lexeme_type (ch :: r)) (lexeme_span (ch :: r)))
           l c)) ->
  forall off lc l items,
    Scanned off lc l items -> Forall P (map item_token items).
Proof.
  intros HP off lc l items H.
  induction H as [|off lc ws l rest items Hws Hl Hne Hsc IH]; simpl.
  - constructor.
  - constructor; [|exact IH].
    destruct l as [|ch r]; [now elim Hne|]. apply HP.
Qed.

End Lexemes.

(** * Newlines, preprocessor directives, comments and unknown characters *)

(** C1 (amended in the value, which is the escaped spelling): when the
    dispatcher finds a newline character after the skipped horizontal
    whitespace, the newline branch runs and appends exactly one [NEWLINE]
    token whose value is the two-character text backslash, n; the token
    carries the line and column of the newline character, and the cursor
    moves past exactly that one character, to column 1 of the next line. *)
Theorem newline_token_escaped_value self ws r :
  forallb is_hspace ws = true ->
  remaining self = ws ++ NL :: r ->
  exists self',
    tokenize_body self = Some (Continue BNewline self')
    /\ tokens self'
       = tokens self
         ++ [mkToken NEWLINE [BACKSLASH; "n"%char] (line self)
               (column self + length ws)]
    /\ pos self' = pos self + length ws + 1
    /\ remaining self' = r
    /\ line self' = line self + 1
    /\ column self' = 1.
Proof.
  intros Hws E.
  destruct (tokenize_body_lexeme self ws NL r Hws eq_refl E)
    as (self' & Hb & Ht & _ & Hp & Hr & Hlc).
  unfold lexeme_branch, lexeme_type, lexeme_span in *.
  rewrite lexeme_newline in *. cbn in Hb, Ht, Hp, Hr, Hlc.
  exists self'. injection Hlc as Hl Hc.
  repeat split; auto.
Qed.

Lemma newline_token_escaped_value_witness :
  forallb is_hspace [SPACE; TAB] = true
  /\ remaining (Lexer_init ([SPACE; TAB; NL] ++ str "x"))
     = [SPACE; TAB] ++ NL :: str "x"
  /\ exists self',
       tokenize_body (Lexer_init ([SPACE; TAB; NL] ++ str "x"))
       = Some (Continue BNewline self')
       /\ tokens self' = [] ++ [mkToken NEWLINE [BACKSLASH; "n"%char] 1 (1 + 2)]
       /\ pos self' = 0 + 2 + 1
       /\ remaining self' = str "x"
       /\ line self' = 1 + 1
       /\ column self' = 1.
Proof.
  split; [reflexivity|]. split; [reflexivity|].
  apply (newline_token_escaped_value
           (Lexer_init ([SPACE; TAB; NL] ++ str "x")) [SPACE; TAB] (str "x"));
    reflexivity.
Defined.

(** C1, as stated, fails: on the one-line-break source the lexer returns one
    [NEWLINE] token, and its value is not the one-character text made of the
    newline character (it has two characters). *)
Lemma newline_value_is_not_the_newline_character :
  exists t,
    lex [NL] = Some [t]
    /\ tok_type t = NEWLINE
    /\ tok_value t <> [NL]
    /\ length (tok_value t) = 2.
Proof.
  exists (mkToken NEWLINE [BACKSLASH; "n"%char] 1 1).
  repeat split; try reflexivity. discriminate.
Qed.

(** C2: when the dispatcher finds [#] after the skipped horizontal
    whitespace, the preprocessor branch runs and appends one [PREPROCESSOR]
    token that holds the text from the [#] up to, and not including, the
    next newline or the end of the source; no execution of the loop body
    ever takes the later, Python-style-comment test of [#]; and in the
    output of the lexer every token whose value starts with [#] has type
    [PREPROCESSOR] (so none has type [COMMENT]). *)
Theorem hash_is_always_preprocessor :
  (forall self ws r,
      forallb is_hspace ws = true ->
      remaining self = ws ++ HASH :: r ->
      exists self',
        tokenize_body self = Some (Continue BPreprocessor self')
        /\ tokens self'
           = tokens self
             ++ [mkToken PREPROCESSOR (HASH :: take_while not_newline r)
                   (line self) (column self + length ws)]
        /\ ~ In NL (take_while not_newline r)
        /\ remaining self' = drop_while not_newline r
        /\ (remaining self' = [] \/ exists r', remaining self' = NL :: r'))
  /\ (forall self b self',
         tokenize_body self = Some (Continue b self') -> b <> BHashComment)
  /\ (forall src toks t,
         lex src = Some toks -> In t toks ->
         hd_error (tok_value t) = Some HASH ->
         tok_type t = PREPROCESSOR).
Proof.
  split; [|split].
  - intros self ws r Hws E.
    destruct (tokenize_body_lexeme self ws HASH r Hws eq_refl E)
      as (self' & Hb & Ht & _ & _ & Hr & _).
    unfold lexeme_branch, lexeme_type, lexeme_span in *.
    rewrite lexeme_hash in *. cbn [fst snd lexeme_value] in *.
    exists self'. split; [exact Hb|]. split; [exact Ht|].
    split; [apply not_newline_take|].
    assert (Hr' : remaining self' = drop_while not_newline r).
    { rewrite Hr. cbn [length skipn]. apply skipn_take_while. }
    split; [exact Hr'|]. rewrite Hr'. apply not_newline_drop.
  - intros self b self' H. rewrite tokenize_body_spec in H.
    destruct (drop_while is_hspace (remaining self)); [discriminate|].
    injection H as <- _. apply lexeme_branch_not_hash_comment.
  - intros src toks t Hlex Hin Hhd.
    destruct (lex_scanned src) as (items & Hl & Hsc).
    rewrite Hl in Hlex. injection Hlex as <-.
    pose proof (Scanned_Forall
                  (fun t => hd_error (tok_value t) = Some HASH ->
                            tok_type t = PREPROCESSOR)) as HF.
    cbn [tok_value tok_type] in HF.
    specialize (HF (fun ch r _ _ => lexeme_value_hash ch r) _ _ _ _ Hsc).
    rewrite Forall_forall in HF. now apply HF.
Qed.

Lemma hash_is_always_preprocessor_witness :
  forallb is_hspace [SPACE] = true
  /\ remaining (Lexer_init (str " #if x" ++ [NL] ++ str "y"))
     = [SPACE] ++ HASH :: (str "if x" ++ [NL] ++ str "y")
  /\ exists self',
       tokenize_body (Lexer_init (str " #if x" ++ [NL] ++ str "y"))
       = Some (Continue BPreprocessor self')
       /\ tokens self' = [mkToken PREPROCESSOR (str "#if x") 1 2]
       /\ remaining self' = NL :: str "y".
Proof.
  split; [reflexivity|]. split; [reflexivity|].
  destruct (proj1 hash_is_always_preprocessor
              (Lexer_init (str " #if x" ++ [NL] ++ str "y")) [SPACE]
              (str "if x" ++ [NL] ++ str "y") eq_refl eq_refl)
    as (self' & Hb & Ht & _ & Hr & _).
  exists self'. split; [exact Hb|]. split; [exact Ht|exact Hr].
Defined.

Section OperatorFacts.

Lemma two_char_lookup_some ch r two :
  two_char_lookup ch r = Some two ->
  exists nx r', r = nx :: r' /\ two = [ch; nx]
                /\ in_words [ch; nx] multi_char_ops = true.
Proof.
  unfold two_char_lookup. destruct r as [|nx r']; [discriminate|].
  cbn [hd_error]. destruct (in_words [ch; nx] multi_char_ops) eqn:E;
    [|discriminate].
  intros [= <-]. now exists nx, r'.
Qed.

Lemma lexeme_operator_not_double_slash ch r :
  lexeme_type (ch :: r) = OPERATOR ->
  lexeme_value (lexeme_type (ch :: r)) (lexeme_span (ch :: r))
  <> [SLASH; SLASH].
Proof.
  intros T. rewrite T. cbn [lexeme_value]. revert T.
  unfold lexeme_type, lexeme_span, next_lexeme.
  destruct (Ascii.eqb ch NL); [discriminate|].
  destruct (Ascii.eqb ch HASH); [discriminate|].
  destruct (Ascii.eqb ch SLASH && is_char (hd_error r) SLASH) eqn:B;
    [discriminate|].
  destruct (Ascii.eqb ch SLASH && is_char (hd_error r) STAR);
    [discriminate|].
  destruct (isdigit ch).
  { cbn [fst snd].
    now destruct (snd (number_span false (ch :: r))). }
  destruct (isalpha ch || Ascii.eqb ch UNDERSCORE).
  { cbn [fst snd].
    now destruct (in_words (take_while is_word_char (ch :: r))
                    TOKEN_TYPES_KEYWORD). }
  destruct (in_chars ch [DQUOTE; SQUOTE]); [discriminate|].
  destruct (two_char_lookup ch r) as [two|] eqn:L.
  - destruct (two_char_lookup_some _ _ _ L) as (nx & r' & -> & -> & _).
    cbn. intros _ [= -> ->]. discriminate B.
  - destruct (in_chars ch single_ops); [cbn; discriminate|].
    destruct (in_chars ch delimiters); discriminate.
Qed.

End OperatorFacts.

(** C10: ["//"] is an entry of the two-character operator table, and yet
    for every source no [OPERATOR] token of the output has the value
    ["//"]: when the dispatcher finds ["//"] after the skipped horizontal
    whitespace, the line-comment branch runs and appends one [COMMENT]
    token that starts with these two characters and runs up to, and not
    including, the next newline or the end of the source. *)
Theorem double_slash_is_never_an_operator :
  In (str "//") multi_char_ops
  /\ (forall src,
         exists toks,
           lex src = Some toks
           /\ Forall (fun t => tok_type t = OPERATOR ->
                               tok_value t <> str "//") toks)
  /\ (forall self ws r,
         forallb is_hspace ws = true ->
         remaining self = ws ++ SLASH :: SLASH :: r ->
         exists self',
           tokenize_body self = Some (Continue BLineComment self')
           /\ tokens self'
              = tokens self
                ++ [mkToken COMMENT (str "//" ++ take_while not_newline r)
                      (line self) (column self + length ws)]
           /\ remaining self' = drop_while not_newline r).
Proof.
  split; [|split].
  - unfold multi_char_ops. simpl. tauto.
  - intros src. destruct (lex_scanned src) as (items & Hl & Hsc).
    exists (map item_token items). split; [exact Hl|].
    apply (Scanned_Forall
             (fun t => tok_type t = OPERATOR -> tok_value t <> str "//"))
      with (off := 0) (lc := (1, 1)) (l := src); [|exact Hsc].
    intros ch r l c. cbn [tok_type tok_value].
    apply lexeme_operator_not_double_slash.
  - intros self ws r Hws E.
    destruct (tokenize_body_lexeme self ws SLASH (SLASH :: r) Hws eq_refl E)
      as (self' & Hb & Ht & _ & _ & Hr & _).
    unfold lexeme_branch, lexeme_type, lexeme_span in *.
    rewrite lexeme_line_comment in *. cbn [fst snd lexeme_value] in *.
    exists self'. split; [exact Hb|]. split; [exact Ht|].
    rewrite Hr. cbn [length skipn]. apply skipn_take_while.
Qed.

Lemma double_slash_is_never_an_operator_witness :
  forallb is_hspace [] = true
  /\ remaining (Lexer_init (str "//=" ++ [NL] ++ str "a"))
     = [] ++ SLASH :: SLASH :: (str "=" ++ [NL] ++ str "a")
  /\ exists self',
       tokenize_body (Lexer_init (str "//=" ++ [NL] ++ str "a"))
       = Some (Continue BLineComment self')
       /\ tokens self' = [mkToken COMMENT (str "//=") 1 1]
       /\ remaining self' = NL :: str "a".
Proof.
  split; [reflexivity|]. split; [reflexivity|].
  destruct (proj2 (proj2 double_slash_is_never_an_operator)
              (Lexer_init (str "//=" ++ [NL] ++ str "a")) []
              (str "=" ++ [NL] ++ str "a") eq_refl eq_refl)
    as (self' & Hb & Ht & Hr).
  exists self'. split; [exact Hb|]. split; [exact Ht|exact Hr].
Defined.

(** C5: [tokenize] returns a token list for every lexer state, hence for
    every source (the fuel it hands to its loops never runs out, and no step
    of the model can fail otherwise); a current character that matches no
    category rule is consumed as exactly one one-character [UNKNOWN] token;
    the source ["$"] gives the single token [UNKNOWN "$"]. *)
Theorem tokenize_total_unknown_fallback :
  (forall self, exists toks, tokenize self = Some toks)
  /\ (forall src, exists toks, lex src = Some toks)
  /\ (forall self ws ch r,
         forallb is_hspace ws = true ->
         remaining self = ws ++ ch :: r ->
         matches_no_rule ch r = true ->
         exists self',
           tokenize_body self = Some (Continue BUnknown self')
           /\ tokens self'
              = tokens self
                ++ [mkToken UNKNOWN [ch] (line self) (column self + length ws)]
           /\ pos self' = pos self + length ws + 1
           /\ remaining self' = r)
  /\ lex (str "$") = Some [mkToken UNKNOWN (str "$") 1 1].
Proof.
  assert (Htotal : forall self, exists toks, tokenize self = Some toks).
  { intros self.
    destruct (tokenize_loop_scanned (budget self) self)
      as (self' & items & Hrun & _).
    { rewrite budget_remaining. lia. }
    exists (tokens self'). unfold tokenize. now rewrite Hrun. }
  split; [exact Htotal|]. split; [intros src; apply Htotal|].
  split; [|reflexivity].
  intros self ws ch r Hws E H.
  unfold matches_no_rule in H.
  repeat (apply andb_true_iff in H as [H ?]).
  repeat match goal with
         | H : negb _ = true |- _ => apply negb_true_iff in H
         end.
  destruct (tokenize_body_lexeme self ws ch r Hws H E)
    as (self' & Hb & Ht & _ & Hp & Hr & _).
  assert (Hn : next_lexeme (ch :: r) = (BUnknown, UNKNOWN, [ch])).
  { unfold next_lexeme.
    repeat match goal with
           | H : ?b = false |- context [if ?b then _ else _] => rewrite H
           end.
    now destruct (two_char_lookup ch r). }
  unfold lexeme_branch, lexeme_type, lexeme_span in *.
  rewrite Hn in *. cbn [fst snd lexeme_value length skipn] in *.
  exists self'. now repeat split.
Qed.

Lemma tokenize_total_unknown_fallback_witness :
  forallb is_hspace [SPACE] = true
  /\ remaining (Lexer_init (str " $x")) = [SPACE] ++ "$"%char :: str "x"
  /\ matches_no_rule "$"%char (str "x") = true
  /\ exists self',
       tokenize_body (Lexer_init (str " $x")) = Some (Continue BUnknown self')
       /\ tokens self' = [mkToken UNKNOWN (str "$") 1 2]
       /\ pos self' = 2
       /\ remaining self' = str "x".
Proof.
  split; [reflexivity|]. split; [reflexivity|]. split; [reflexivity|].
  apply (proj1 (proj2 (proj2 tokenize_total_unknown_fallback))
           (Lexer_init (str " $x")) [SPACE] "$"%char (str "x"));
    reflexivity.
Defined.

(** * Accounting for the source and ordering the tokens *)

Section Order.

Lemma lexeme_type_newline ch r :
  lexeme_type (ch :: r) = NEWLINE -> lexeme_span (ch :: r) = [NL].
Proof.
  unfold lexeme_type, lexeme_span, next_lexeme.
  destruct (Ascii.eqb ch NL) eqn:E.
  { apply Ascii.eqb_eq in E. now subst. }
  destruct (Ascii.eqb ch HASH); [discriminate|].
  destruct (Ascii.eqb ch SLASH && is_char (hd_error r) SLASH);
    [discriminate|].
  destruct (Ascii.eqb ch SLASH && is_char (hd_error r) STAR);
    [discriminate|].
  destruct (isdigit ch).
  { cbn [fst snd].
    now destruct (snd (number_span false (ch :: r))). }
  destruct (isalpha ch || Ascii.eqb ch UNDERSCORE).
  { cbn [fst snd].
    now destruct (in_words (take_while is_word_char (ch :: r))
                    TOKEN_TYPES_KEYWORD). }
  destruct (in_chars ch [DQUOTE; SQUOTE]); [discriminate|].
  destruct (two_char_lookup ch r); [discriminate|].
  destruct (in_chars ch single_ops); [discriminate|].
  destruct (in_chars ch delimiters); discriminate.
Qed.

Lemma lexeme_reads ch r l c :
  reads (mkToken (lexeme_type (ch :: r))
           (lexeme_value (lexeme_type (ch :: r)) (lexeme_span (ch :: r)))
           l c)
    (lexeme_span (ch :: r)).
Proof.
  unfold reads. cbn [tok_type tok_value].
  destruct (lexeme_type (ch :: r)) eqn:T;
    try (right; split; [discriminate|reflexivity]).
  left. repeat split. now apply lexeme_type_newline.
Qed.

Lemma Scanned_Accounted off lc l items :
  Scanned off lc l items -> Accounted l items.
Proof.
  induction 1 as [|off lc ws l rest items Hws Hl Hne Hsc IH].
  - now constructor.
  - rewrite Hl at 1.
    destruct l as [|ch r]; [now elim Hne|].
    apply (Accounted_token ws (mkItem _ _ _)); auto.
    apply lexeme_reads.
Qed.

Lemma step_loc_lt lc c : loc_lt lc (step_loc lc c).
Proof.
  unfold loc_lt, step_loc. destruct (Ascii.eqb c NL); simpl; lia.
Qed.

Lemma loc_lt_trans a b c : loc_lt a b -> loc_lt b c -> loc_lt a c.
Proof. unfold loc_lt. lia. Qed.

Lemma loc_lt_le_trans a b c : loc_lt a b -> loc_le b c -> loc_lt a c.
Proof. intros H [<-|H']; auto. eapply loc_lt_trans; eauto. Qed.

Lemma loc_le_trans a b c : loc_le a b -> loc_le b c -> loc_le a c.
Proof.
  intros [<-|H] H'; auto. right. eapply loc_lt_le_trans; eauto.
Qed.

Lemma loc_after_le p : forall lc, loc_le lc (loc_after lc p).
Proof.
  induction p as [|c p IH]; intros lc; simpl.
  - now left.
  - right. eapply loc_lt_le_trans; [apply step_loc_lt|apply IH].
Qed.

Lemma loc_after_lt p lc : p <> [] -> loc_lt lc (loc_after lc p).
Proof.
  destruct p as [|c p]; [congruence|]. intros _. simpl.
  eapply loc_lt_le_trans; [apply step_loc_lt|apply loc_after_le].
Qed.

Lemma loc_after_app lc p q :
  loc_after lc (p ++ q) = loc_after (loc_after lc p) q.
Proof. apply fold_left_app. Qed.

Lemma Scanned_ordered off lc l items :
  Scanned off lc l items ->
  forall src pre,
    src = pre ++ l -> off = length pre -> lc = loc_after (1, 1) pre ->
    Forall (starts_at src) items
    /\ Forall (fun it => off <= item_offset it
                         /\ loc_le lc (tok_loc (item_token it))) items
    /\ StronglySorted (fun a b => item_offset a < item_offset b) items
    /\ StronglySorted (fun a b => loc_lt (tok_loc a) (tok_loc b))
         (map item_token items).
Proof.
  induction 1 as [|off lc ws l rest items Hws Hl Hne Hsc IH];
    intros src pre Hsrc Hoff Hlc.
  - repeat split; constructor.
  - set (span := lexeme_span l) in *.
    assert (Hlen : 0 < length span)
      by (destruct span; [congruence|simpl; lia]).
    destruct (IH src (pre ++ ws ++ span)) as (Hst & Hlow & Hso & Hsl).
    { rewrite Hsrc, Hl. now rewrite <- !app_assoc. }
    { rewrite !length_app. lia. }
    { rewrite Hlc. now rewrite <- !loc_after_app. }
    assert (Hsrc' : src = (pre ++ ws) ++ span ++ rest)
      by (rewrite Hsrc, Hl at 1; now rewrite <- app_assoc).
    assert (Hoff' : off + length ws = length (pre ++ ws))
      by (rewrite length_app; lia).
    rewrite Forall_forall in Hlow.
    split; [|split; [|split]].
    + constructor; [|exact Hst].
      unfold starts_at. cbn [item_offset item_span item_token].
      split.
      { rewrite Hsrc', Hoff', !length_app. lia. }
      split.
      { exists rest. rewrite Hsrc', Hoff'.
        now rewrite skipn_app, skipn_all, Nat.sub_diag. }
      split; [exact Hne|]. split.
      { destruct l as [|ch r]; [now elim Hne|]. apply lexeme_reads. }
      unfold tok_loc. cbn [tok_line tok_column].
      rewrite <- surjective_pairing, Hsrc', Hoff'.
      rewrite firstn_app, firstn_all, Nat.sub_diag, app_nil_r.
      now rewrite Hlc, loc_after_app.
    + constructor.
      * cbn [item_offset item_token]. split; [lia|].
        unfold tok_loc. cbn [tok_line tok_column].
        rewrite <- surjective_pairing. apply loc_after_le.
      * apply Forall_forall. intros it Hin.
        destruct (Hlow it Hin) as [Ho Hloc]. split; [lia|].
        eapply loc_le_trans; [|exact Hloc].
        rewrite <- loc_after_app. apply loc_after_le.
    + constructor; [exact Hso|].
      apply Forall_forall. intros it Hin.
      destruct (Hlow it Hin) as [Ho _]. cbn [item_offset]. lia.
    + cbn [map]. constructor; [exact Hsl|].
      apply Forall_forall. intros t Hin.
      apply in_map_iff in Hin as (it & <- & Hin).
      destruct (Hlow it Hin) as [_ Hloc].
      eapply loc_lt_le_trans; [|exact Hloc].
      cbn [item_token]. unfold tok_loc at 1. cbn [tok_line tok_column].
      rewrite <- surjective_pairing. now apply loc_after_lt.
Qed.

Lemma StronglySorted_adjacent (A : Type) (R : A -> A -> Prop) l :
  StronglySorted R l ->
  forall i a b,
    nth_error l i = Some a -> nth_error l (S i) = Some b -> R a b.
Proof.
  induction 1 as [|x l Hs IH Hall]; intros i a b Ha Hb.
  - destruct i; discriminate.
  - destruct i as [|i].
    + injection Ha as <-. rewrite Forall_forall in Hall.
      apply Hall. apply (nth_error_In l 0). exact Hb.
    + apply (IH i); assumption.
Qed.

End Order.

(** C3: for every source the lexer returns a token list (the loop ends
    within the fuel [tokenize] gives it), and the source is accounted for
    character by character: it is, from left to right, skipped horizontal
    whitespace and the non-empty span of the first token, skipped
    horizontal whitespace and the span of the second token, and so on, so
    every character lies in the span of exactly one token or in skipped
    whitespace.  Moreover every execution of the loop body that starts
    before the end of the source ends with the cursor strictly further, and
    not beyond the end. *)
Theorem tokenize_terminates_and_accounts :
  (forall src,
      exists items,
        lex src = Some (map item_token items) /\ Accounted src items)
  /\ (forall self,
         pos self < length (source self) ->
         exists flow,
           tokenize_body self = Some flow
           /\ source (flow_state flow) = source self
           /\ pos self < pos (flow_state flow)
           /\ pos (flow_state flow) <= length (source self)).
Proof.
  split.
  - intros src. destruct (lex_scanned src) as (items & Hl & Hsc).
    exists items. split; [exact Hl|]. eapply Scanned_Accounted; eauto.
  - intros self Hpos. rewrite tokenize_body_spec.
    pose proof (budget_remaining self) as Hb. unfold budget in Hb.
    pose proof (take_drop_while is_hspace (remaining self)) as Hsplit.
    apply (f_equal (@length ascii)) in Hsplit. rewrite length_app in Hsplit.
    set (ws := take_while is_hspace (remaining self)) in *.
    destruct (drop_while is_hspace (remaining self)) as [|ch r] eqn:D.
    + exists (Break (consume ws self)). split; [reflexivity|].
      unfold consume; cbn [flow_state source pos]. simpl in Hsplit.
      repeat split; lia.
    + eexists. split; [reflexivity|].
      pose proof (lexeme_span_nonempty ch r) as Hne.
      destruct (lexeme_span_prefix (ch :: r)) as [rest Hp].
      apply (f_equal (@length ascii)) in Hp. rewrite length_app in Hp.
      assert (0 < length (lexeme_span (ch :: r)))
        by (destruct (lexeme_span (ch :: r)); [congruence|simpl; lia]).
      cbn [flow_state]. rewrite pos_after_lexeme.
      split; [reflexivity|]. split; lia.
Qed.

Lemma tokenize_terminates_and_accounts_witness :
  pos (Lexer_init (str " ab c")) < length (source (Lexer_init (str " ab c")))
  /\ exists flow,
       tokenize_body (Lexer_init (str " ab c")) = Some flow
       /\ source (flow_state flow) = str " ab c"
       /\ 0 < pos (flow_state flow)
       /\ pos (flow_state flow) <= 5.
Proof.
  split; [cbn; lia|].
  apply (proj2 tokenize_terminates_and_accounts (Lexer_init (str " ab c"))).
  cbn; lia.
Defined.

(** C4: for every source, the tokens of the output can be given their
    start offsets in the source (the place where the span of the token is
    read and where the cursor has the line and column the token records);
    these offsets are strictly increasing along the output, so a token
    emitted before another starts strictly before it, and the (line,
    column) pairs are strictly increasing in the lexicographic order, for
    any two tokens and in particular for adjacent ones. *)
Theorem tokens_strictly_ordered_by_position :
  forall src,
    exists items,
      lex src = Some (map item_token items)
      /\ Forall (starts_at src) items
      /\ StronglySorted (fun a b => item_offset a < item_offset b) items
      /\ StronglySorted (fun a b => loc_lt (tok_loc a) (tok_loc b))
           (map item_token items)
      /\ (forall i a b,
             nth_error (map item_token items) i = Some a ->
             nth_error (map item_token items) (S i) = Some b ->
             loc_lt (tok_loc a) (tok_loc b)).
Proof.
  intros src. destruct (lex_scanned src) as (items & Hl & Hsc).
  exists items. split; [exact Hl|].
  destruct (Scanned_ordered _ _ _ _ Hsc src [] eq_refl eq_refl eq_refl)
    as (Hst & _ & Hso & Hsl).
  repeat split; auto.
  now apply StronglySorted_adjacent.
Qed.

Lemma tokens_strictly_ordered_by_position_witness :
  exists a b,
    lex (str "x" ++ [NL] ++ str "y") = Some [a; mkToken NEWLINE NEWLINE_VALUE 1 2; b]
    /\ loc_lt (tok_loc a) (1, 2)
    /\ loc_lt (1, 2) (tok_loc b).
Proof.
  destruct (tokens_strictly_ordered_by_position (str "x" ++ [NL] ++ str "y"))
    as (items & Hl & _ & _ & _ & Hadj).
  change (lex (str "x" ++ [NL] ++ str "y"))
    with (Some [mkToken IDENTIFIER (str "x") 1 1;
                mkToken NEWLINE NEWLINE_VALUE 1 2;
                mkToken IDENTIFIER (str "y") 2 1]) in Hl.
  injection Hl as Hl. rewrite <- Hl in Hadj.
  exists (mkToken IDENTIFIER (str "x") 1 1), (mkToken IDENTIFIER (str "y") 2 1).
  split; [reflexivity|]. split.
  - exact (Hadj 0 _ _ eq_refl eq_refl).
  - exact (Hadj 1 _ _ eq_refl eq_refl).
Defined.

(** * Character classes *)

Section Classes.

(** A boolean property of characters holds of all of them when it holds of
    each of the 256. *)
Lemma forall_ascii (P : ascii -> bool) :
  forallb P all_ascii = true -> forall c, P c = true.
Proof.
  intros H c. rewrite forallb_forall in H. apply H.
  unfold all_ascii. rewrite <- (ascii_nat_embedding c).
  apply in_map, in_seq. pose proof (nat_ascii_bounded c). lia.
Qed.

Lemma eqb_false_of (f : ascii -> bool) c k :
  f c = true -> f k = false -> Ascii.eqb c k = false.
Proof.
  intros Hc Hk. destruct (Ascii.eqb c k) eqn:E; auto.
  apply Ascii.eqb_eq in E. subst. congruence.
Qed.

Lemma isdigit_not_hspace c : isdigit c = true -> is_hspace c = false.
Proof.
  intros H. destruct (is_hspace c) eqn:E; auto.
  destruct (is_hspace_cases c E) as [-> | [-> | ->]]; discriminate H.
Qed.

Lemma word_start_not_hspace c :
  isalpha c || Ascii.eqb c UNDERSCORE = true -> is_hspace c = false.
Proof.
  intros H. destruct (is_hspace c) eqn:E; auto.
  destruct (is_hspace_cases c E) as [-> | [-> | ->]]; discriminate H.
Qed.

Lemma word_start_not k c :
  isalpha c || Ascii.eqb c UNDERSCORE = true ->
  isalpha k || Ascii.eqb k UNDERSCORE = false ->
  Ascii.eqb c k = false.
Proof.
  apply (eqb_false_of (fun c => isalpha c || Ascii.eqb c UNDERSCORE)).
Qed.

Lemma word_start_not_digit c :
  isalpha c || Ascii.eqb c UNDERSCORE = true -> isdigit c = false.
Proof.
  intros H.
  pose proof (forall_ascii
                (fun c => implb (isalpha c || Ascii.eqb c UNDERSCORE)
                            (negb (isdigit c))) eq_refl c) as F.
  cbv beta in F. rewrite H in F. now apply negb_true_iff in F.
Qed.

Lemma text_eqb_eq a : forall b, text_eqb a b = true <-> a = b.
Proof.
  induction a as [|x a IH]; intros [|y b]; simpl; split;
    try discriminate; auto.
  - intros H. apply andb_true_iff in H as [Hx Hab].
    apply Ascii.eqb_eq in Hx. apply IH in Hab. congruence.
  - intros [= -> ->]. rewrite Ascii.eqb_refl. now apply IH.
Qed.

Lemma in_words_In w words : in_words w words = true <-> In w words.
Proof.
  unfold in_words. rewrite existsb_exists. split.
  - intros (x & Hin & E). apply text_eqb_eq in E. now subst.
  - intros Hin. exists w. split; auto. now apply text_eqb_eq.
Qed.

End Classes.

(** * Numbers *)

Section Numbers.

Lemma isdigit_not_dot c : isdigit c = true -> Ascii.eqb c DOT = false.
Proof. intros H. now apply (eqb_false_of isdigit). Qed.

Lemma number_span_true : forall l,
  number_span true l = (take_while isdigit l, true).
Proof.
  induction l as [|c r IH]; simpl; auto.
  destruct (isdigit c) eqn:D.
  - rewrite (isdigit_not_dot _ D). simpl. now rewrite IH.
  - destruct (Ascii.eqb c DOT); reflexivity.
Qed.

Lemma number_span_false : forall l, number_span false l = number_lexeme l.
Proof.
  unfold number_lexeme.
  induction l as [|c r IH]; simpl; auto.
  destruct (isdigit c) eqn:D.
  - rewrite (isdigit_not_dot _ D). simpl. rewrite IH.
    destruct (drop_while isdigit r) as [|c' r2]; auto.
    now destruct (Ascii.eqb c' DOT).
  - destruct (Ascii.eqb c DOT) eqn:E; simpl; auto.
    apply Ascii.eqb_eq in E. subst c. now rewrite number_span_true.
Qed.

Lemma number_lexeme_split l : fst (number_lexeme l) ++ number_rest l = l.
Proof.
  unfold number_lexeme, number_rest.
  pose proof (take_drop_while isdigit l) as H.
  destruct (drop_while isdigit l) as [|c r2]; [exact H|].
  destruct (Ascii.eqb c DOT) eqn:E; [|exact H].
  apply Ascii.eqb_eq in E. subst c. cbn [fst].
  rewrite <- app_assoc. cbn [app].
  now rewrite (take_drop_while isdigit r2).
Qed.

Lemma drop_while_head f l c :
  hd_error (drop_while f l) = Some c -> f c = false.
Proof.
  induction l as [|x l IH]; simpl; [discriminate|].
  destruct (f x) eqn:E; auto. simpl. now intros [= <-].
Qed.

Lemma digits_have_no_dot l : ~ In DOT (take_while isdigit l).
Proof.
  induction l as [|c r IH]; simpl; auto.
  destruct (isdigit c) eqn:D; simpl; auto.
  intros [->|H]; auto. discriminate D.
Qed.

Lemma number_lexeme_float l :
  snd (number_lexeme l) = true <-> In DOT (fst (number_lexeme l)).
Proof.
  unfold number_lexeme.
  destruct (drop_while isdigit l) as [|c r2]; cbn [fst snd].
  - split; [discriminate|]. intros H. now apply digits_have_no_dot in H.
  - destruct (Ascii.eqb c DOT); cbn [fst snd].
    + split; auto. intros _. apply in_or_app. right. now left.
    + split; [discriminate|]. intros H. now apply digits_have_no_dot in H.
Qed.

Lemma number_lexeme_one_dot l :
  count_occ ascii_dec (fst (number_lexeme l)) DOT <= 1.
Proof.
  assert (Hz : forall l, count_occ ascii_dec (take_while isdigit l) DOT = 0).
  { intros l'. apply count_occ_not_In, digits_have_no_dot. }
  unfold number_lexeme.
  destruct (drop_while isdigit l) as [|c r2]; cbn [fst].
  - rewrite Hz. lia.
  - destruct (Ascii.eqb c DOT); cbn [fst].
    + rewrite count_occ_app, count_occ_cons_eq, !Hz by reflexivity. lia.
    + rewrite Hz. lia.
Qed.

Lemma number_rest_head l c :
  hd_error (number_rest l) = Some c ->
  isdigit c = false
  /\ (c = DOT -> snd (number_lexeme l) = true).
Proof.
  unfold number_rest, number_lexeme.
  destruct (drop_while isdigit l) as [|c' r2] eqn:D; [discriminate|].
  destruct (Ascii.eqb c' DOT) eqn:E.
  - intros H. split; [|reflexivity]. now apply drop_while_head in H.
  - cbn [hd_error]. intros [= <-]. split.
    + apply (drop_while_head isdigit l). now rewrite D.
    + intros ->. discriminate E.
Qed.

Lemma lexeme_number d r :
  isdigit d = true ->
  next_lexeme (d :: r)
  = (BNumber, if snd (number_lexeme (d :: r)) then FLOAT else INTEGER,
     fst (number_lexeme (d :: r))).
Proof.
  intros H. unfold next_lexeme.
  rewrite (eqb_false_of isdigit d NL H eq_refl),
    (eqb_false_of isdigit d HASH H eq_refl),
    (eqb_false_of isdigit d SLASH H eq_refl), H.
  cbn [andb]. now rewrite number_span_false.
Qed.

Lemma lexeme_dot r : next_lexeme (DOT :: r) = (BDelimiter, DELIMITER, [DOT]).
Proof. destruct r; reflexivity. Qed.

End Numbers.

(** C7 (amended in what counts as a digit: the characters that
    [str.isdigit] accepts, which are the decimal digits and, among the
    code points modelled, the superscript digits): when the dispatcher
    finds such a digit after the skipped horizontal whitespace, the number
    branch appends one token whose value is the maximal run of digits at
    the cursor, followed, when a [.] comes next, by that [.] and the
    maximal run of digits behind it; the value holds at most one [.], the
    type is [FLOAT] exactly when it holds one and [INTEGER] otherwise, and
    the character behind the token is not a digit.  When that character is
    a [.], the token already holds a [.] (it is a second one), and the next
    execution of the loop body emits it as the [DELIMITER] ["."].  The
    source ["3.1.4"] gives [FLOAT "3.1"], [DELIMITER "."], [INTEGER "4"]. *)
Theorem number_run_with_one_dot :
  (forall self ws d r,
      forallb is_hspace ws = true ->
      isdigit d = true ->
      remaining self = ws ++ d :: r ->
      exists self',
        tokenize_body self = Some (Continue BNumber self')
        /\ tokens self'
           = tokens self
             ++ [mkToken
                   (if snd (number_lexeme (d :: r)) then FLOAT else INTEGER)
                   (fst (number_lexeme (d :: r)))
                   (line self) (column self + length ws)]
        /\ remaining self' = number_rest (d :: r)
        /\ count_occ ascii_dec (fst (number_lexeme (d :: r))) DOT <= 1
        /\ (snd (number_lexeme (d :: r)) = true
            <-> In DOT (fst (number_lexeme (d :: r))))
        /\ (forall c, hd_error (remaining self') = Some c -> isdigit c = false)
        /\ (forall r3,
               remaining self' = DOT :: r3 ->
               snd (number_lexeme (d :: r)) = true
               /\ exists self'',
                    tokenize_body self' = Some (Continue BDelimiter self'')
                    /\ tokens self''
                       = tokens self'
                         ++ [mkToken DELIMITER [DOT] (line self')
                               (column self')]
                    /\ remaining self'' = r3))
  /\ lex (str "3.1.4")
     = Some [mkToken FLOAT (str "3.1") 1 1;
             mkToken DELIMITER (str ".") 1 4;
             mkToken INTEGER (str "4") 1 5].
Proof.
  split; [|reflexivity].
  intros self ws d r Hws Hd E.
  destruct (tokenize_body_lexeme self ws d r Hws (isdigit_not_hspace _ Hd) E)
    as (self' & Hb & Ht & _ & _ & Hr & _).
  unfold lexeme_branch, lexeme_type, lexeme_span in *.
  rewrite (lexeme_number _ _ Hd) in *. cbn [fst snd] in *.
  assert (Hv : lexeme_value
                 (if snd (number_lexeme (d :: r)) then FLOAT else INTEGER)
                 (fst (number_lexeme (d :: r)))
               = fst (number_lexeme (d :: r)))
    by now destruct (snd (number_lexeme (d :: r))).
  rewrite Hv in Ht.
  assert (Hr' : remaining self' = number_rest (d :: r)).
  { rewrite Hr. rewrite <- (number_lexeme_split (d :: r)) at 2.
    now rewrite skipn_app, skipn_all, Nat.sub_diag. }
  exists self'. split; [exact Hb|]. split; [exact Ht|].
  split; [exact Hr'|]. split; [apply number_lexeme_one_dot|].
  split; [apply number_lexeme_float|]. split.
  - intros c Hc. rewrite Hr' in Hc. now apply number_rest_head in Hc.
  - intros r3 E3. split.
    + apply (number_rest_head (d :: r) DOT); [|reflexivity].
      now rewrite <- Hr', E3.
    + destruct (tokenize_body_lexeme self' [] DOT r3 eq_refl eq_refl E3)
        as (self'' & Hb2 & Ht2 & _ & _ & Hr2 & _).
      unfold lexeme_branch, lexeme_type, lexeme_span in *.
      rewrite lexeme_dot in *.
      cbn [fst snd lexeme_value length skipn] in *.
      rewrite Nat.add_0_r in Ht2.
      exists self''. now repeat split.
Qed.

Lemma number_run_with_one_dot_witness :
  forallb is_hspace [TAB] = true
  /\ isdigit "1"%char = true
  /\ remaining (Lexer_init ([TAB] ++ str "12.5.x"))
     = [TAB] ++ "1"%char :: str "2.5.x"
  /\ exists self',
       tokenize_body (Lexer_init ([TAB] ++ str "12.5.x"))
       = Some (Continue BNumber self')
       /\ tokens self' = [mkToken FLOAT (str "12.5") 1 2]
       /\ remaining self' = str ".x".
Proof.
  split; [reflexivity|]. split; [reflexivity|]. split; [reflexivity|].
  destruct (proj1 number_run_with_one_dot
              (Lexer_init ([TAB] ++ str "12.5.x")) [TAB] "1"%char
              (str "2.5.x") eq_refl eq_refl eq_refl)
    as (self' & Hb & Ht & Hr & _).
  exists self'. split; [exact Hb|]. split; [exact Ht|exact Hr].
Defined.

(** C7, as stated, fails: the run the number scanner consumes is not made
    of decimal digits only.  On the source made of the digit 1 and the
    superscript two (code point 178) the lexer returns one [INTEGER] token
    that holds both characters, and the second one is no decimal digit. *)
Lemma number_run_holds_a_non_decimal_digit :
  exists t,
    lex ["1"%char; "178"%char] = Some [t]
    /\ tok_type t = INTEGER
    /\ tok_value t = ["1"%char; "178"%char]
    /\ is_decimal_digit "178"%char = false
    /\ forallb is_decimal_digit (tok_value t) = false.
Proof.
  exists (mkToken INTEGER ["1"%char; "178"%char] 1 1).
  repeat split; reflexivity.
Qed.

(** * Identifiers and keywords *)

Section Words.

Lemma lexeme_word c r :
  isalpha c || Ascii.eqb c UNDERSCORE = true ->
  next_lexeme (c :: r)
  = (BIdentifier,
     if in_words (take_while is_word_char (c :: r)) TOKEN_TYPES_KEYWORD
     then KEYWORD else IDENTIFIER,
     take_while is_word_char (c :: r)).
Proof.
  intros H. unfold next_lexeme.
  rewrite (word_start_not NL c H eq_refl), (word_start_not HASH c H eq_refl),
    (word_start_not SLASH c H eq_refl), (word_start_not_digit c H), H.
  reflexivity.
Qed.

End Words.

(** C8: when the dispatcher finds a letter or an underscore after the
    skipped horizontal whitespace, the identifier branch appends one token
    whose value is the maximal run of alphanumeric characters and
    underscores at the cursor (the character behind it is none of these);
    the type of the token is [KEYWORD] exactly when this text is an element
    of the keyword list, and [IDENTIFIER] exactly when it is not.
    Membership is equality with an entry, character by character: ["if"]
    is a keyword, while ["iff"], ["If"] and ["i"] are identifiers. *)
Theorem keyword_iff_exact_member :
  (forall self ws c r,
      forallb is_hspace ws = true ->
      isalpha c || Ascii.eqb c UNDERSCORE = true ->
      remaining self = ws ++ c :: r ->
      exists self' ty,
        tokenize_body self = Some (Continue BIdentifier self')
        /\ tokens self'
           = tokens self
             ++ [mkToken ty (take_while is_word_char (c :: r))
                   (line self) (column self + length ws)]
        /\ hd_error (take_while is_word_char (c :: r)) = Some c
        /\ forallb is_word_char (take_while is_word_char (c :: r)) = true
        /\ remaining self' = drop_while is_word_char (c :: r)
        /\ (forall x, hd_error (remaining self') = Some x ->
                      is_word_char x = false)
        /\ (ty = KEYWORD
            <-> In (take_while is_word_char (c :: r)) TOKEN_TYPES_KEYWORD)
        /\ (ty = IDENTIFIER
            <-> ~ In (take_while is_word_char (c :: r)) TOKEN_TYPES_KEYWORD))
  /\ lex (str "if iff If i")
     = Some [mkToken KEYWORD (str "if") 1 1;
             mkToken IDENTIFIER (str "iff") 1 4;
             mkToken IDENTIFIER (str "If") 1 8;
             mkToken IDENTIFIER (str "i") 1 11].
Proof.
  split; [|reflexivity].
  intros self ws c r Hws Hc E.
  destruct (tokenize_body_lexeme self ws c r Hws
              (word_start_not_hspace _ Hc) E)
    as (self' & Hb & Ht & _ & _ & Hr & _).
  pose proof (lexeme_span_head c r) as Hh.
  unfold lexeme_branch, lexeme_type, lexeme_span in *.
  rewrite (lexeme_word _ _ Hc) in *. cbn [fst snd] in *.
  set (word := take_while is_word_char (c :: r)) in *.
  assert (Hr' : remaining self' = drop_while is_word_char (c :: r))
    by (rewrite Hr; apply skipn_take_while).
  exists self',
    (if in_words word TOKEN_TYPES_KEYWORD then KEYWORD else IDENTIFIER).
  split; [exact Hb|]. split.
  { rewrite Ht. now destruct (in_words word TOKEN_TYPES_KEYWORD). }
  split; [exact Hh|]. split; [apply take_while_forallb|].
  split; [exact Hr'|]. split.
  { intros x Hx. rewrite Hr' in Hx. now apply drop_while_head in Hx. }
  pose proof (in_words_In word TOKEN_TYPES_KEYWORD) as Hin.
  destruct (in_words word TOKEN_TYPES_KEYWORD).
  - split; split; try discriminate; try reflexivity.
    + intros _. now apply Hin.
    + intros H. exfalso. now apply H, Hin.
  - split; split; try discriminate; try reflexivity.
    + intros H. apply Hin in H. discriminate.
    + intros _ H. apply Hin in H. discriminate.
Qed.

Lemma keyword_iff_exact_member_witness :
  forallb is_hspace [SPACE] = true
  /\ isalpha "w"%char || Ascii.eqb "w"%char UNDERSCORE = true
  /\ remaining (Lexer_init (str " while(x)"))
     = [SPACE] ++ "w"%char :: str "hile(x)"
  /\ exists self' ty,
       tokenize_body (Lexer_init (str " while(x)"))
       = Some (Continue BIdentifier self')
       /\ tokens self' = [mkToken ty (str "while") 1 2]
       /\ remaining self' = str "(x)"
       /\ (ty = KEYWORD <-> In (str "while") TOKEN_TYPES_KEYWORD).
Proof.
  split; [reflexivity|]. split; [reflexivity|]. split; [reflexivity|].
  destruct (proj1 keyword_iff_exact_member
              (Lexer_init (str " while(x)")) [SPACE] "w"%char
              (str "hile(x)") eq_refl eq_refl eq_refl)
    as (self' & ty & Hb & Ht & _ & _ & Hr & _ & Hk & _).
  exists self', ty.
  split; [exact Hb|]. split; [exact Ht|]. split; [exact Hr|exact Hk].
Defined.

(** * Operators *)

Section Operators.

Lemma reaches_operator_rules_split ch r :
  reaches_operator_rules ch r = true ->
  is_hspace ch = false
  /\ next_lexeme (ch :: r)
     = match two_char_lookup ch r with
       | Some two_char => (BMultiOp, OPERATOR, two_char)
       | None =>
           if in_chars ch single_ops then (BSingleOp, OPERATOR, [ch])
           else if in_chars ch delimiters then (BDelimiter, DELIMITER, [ch])
           else (BUnknown, UNKNOWN, [ch])
       end.
Proof.
  unfold reaches_operator_rules. intros H.
  repeat (apply andb_true_iff in H as [H ?]).
  repeat match goal with
         | H : negb _ = true |- _ => apply negb_true_iff in H
         end.
  split; [assumption|]. unfold next_lexeme.
  repeat match goal with
         | H : ?b = false |- context [if ?b then _ else _] => rewrite H
         end.
  reflexivity.
Qed.

Lemma table_entry_reaches ch nx r' :
  In [ch; nx] multi_char_ops ->
  [ch; nx] <> str "//" ->
  reaches_operator_rules ch (nx :: r') = true.
Proof.
  intros Hin Hne. unfold multi_char_ops in Hin. simpl in Hin.
  repeat (destruct Hin as [Hin|Hin];
          [injection Hin as <- <-;
           first [reflexivity | now elim Hne]|]).
  contradiction.
Qed.

Lemma single_op_reaches ch r :
  in_chars ch single_ops = true ->
  reaches_operator_rules ch r
  = negb (Ascii.eqb ch SLASH
          && (is_char (hd_error r) SLASH || is_char (hd_error r) STAR)).
Proof.
  intros H. unfold in_chars in H. apply existsb_exists in H as (x & Hin & E).
  apply Ascii.eqb_eq in E. subst x.
  unfold single_ops in Hin. simpl in Hin.
  repeat (destruct Hin as [<-|Hin]; [try reflexivity|]);
    try contradiction.
  unfold reaches_operator_rules.
  destruct (is_char (hd_error r) SLASH), (is_char (hd_error r) STAR);
    reflexivity.
Qed.

End Operators.

(** C9 (amended: stated where no earlier rule of the dispatcher fires; the
    pairs ["//"] and ["/*"] start a comment and never get to the operator
    rules): where the dispatcher reaches the operator rules, the
    two-character table is looked up first: when the current character and
    the lookahead character together are an entry of the table, the two
    are consumed as one [OPERATOR] token; when there is no lookahead
    character or the pair is no entry, a current character of the
    one-character operator set is consumed alone as an [OPERATOR] token.
    Every entry of the table other than ["//"] reaches the operator rules,
    and a character of the one-character operator set reaches them unless
    it is a [/] followed by [/] or [*].  The source ["x<<=1"] gives
    [IDENTIFIER "x"], [OPERATOR "<<"], [OPERATOR "="], [INTEGER "1"]. *)
Theorem two_char_operators_first :
  (forall self ws ch r,
      forallb is_hspace ws = true ->
      remaining self = ws ++ ch :: r ->
      reaches_operator_rules ch r = true ->
      (forall nx r',
          r = nx :: r' ->
          In [ch; nx] multi_char_ops ->
          exists self',
            tokenize_body self = Some (Continue BMultiOp self')
            /\ tokens self'
               = tokens self
                 ++ [mkToken OPERATOR [ch; nx] (line self)
                       (column self + length ws)]
            /\ pos self' = pos self + length ws + 2
            /\ remaining self' = r')
      /\ ((r = [] \/ exists nx r', r = nx :: r'
                                   /\ ~ In [ch; nx] multi_char_ops) ->
          in_chars ch single_ops = true ->
          exists self',
            tokenize_body self = Some (Continue BSingleOp self')
            /\ tokens self'
               = tokens self
                 ++ [mkToken OPERATOR [ch] (line self)
                       (column self + length ws)]
            /\ pos self' = pos self + length ws + 1
            /\ remaining self' = r))
  /\ (forall ch nx r',
         In [ch; nx] multi_char_ops ->
         [ch; nx] <> str "//" ->
         reaches_operator_rules ch (nx :: r') = true)
  /\ (forall ch r,
         in_chars ch single_ops = true ->
         reaches_operator_rules ch r
         = negb (Ascii.eqb ch SLASH
                 && (is_char (hd_error r) SLASH
                     || is_char (hd_error r) STAR)))
  /\ lex (str "x<<=1")
     = Some [mkToken IDENTIFIER (str "x") 1 1;
             mkToken OPERATOR (str "<<") 1 2;
             mkToken OPERATOR (str "=") 1 4;
             mkToken INTEGER (str "1") 1 5].
Proof.
  split;
    [|split; [exact table_entry_reaches
             |split; [exact single_op_reaches|reflexivity]]].
  intros self ws ch r Hws E Hreach.
  destruct (reaches_operator_rules_split _ _ Hreach) as [Hch Hn].
  destruct (tokenize_body_lexeme self ws ch r Hws Hch E)
    as (self' & Hb & Ht & _ & Hp & Hr & _).
  unfold lexeme_branch, lexeme_type, lexeme_span in *.
  rewrite Hn in *. clear Hn. split.
  - intros nx r' -> Hin. apply in_words_In in Hin.
    unfold two_char_lookup in *. cbn [hd_error] in *. rewrite Hin in *.
    cbn [fst snd lexeme_value length skipn] in *.
    exists self'. now repeat split.
  - intros Hno Hs.
    assert (L : two_char_lookup ch r = None).
    { unfold two_char_lookup.
      destruct Hno as [->|(nx & r' & -> & Hno)]; [reflexivity|].
      cbn [hd_error].
      destruct (in_words [ch; nx] multi_char_ops) eqn:W; [|reflexivity].
      apply in_words_In in W. contradiction. }
    rewrite L, Hs in *.
    cbn [fst snd lexeme_value length skipn] in *.
    exists self'. now repeat split.
Qed.

Lemma two_char_operators_first_witness :
  forallb is_hspace [SPACE] = true
  /\ remaining (Lexer_init (str " <<=1")) = [SPACE] ++ "<"%char :: str "<=1"
  /\ reaches_operator_rules "<"%char (str "<=1") = true
  /\ In (str "<<") multi_char_ops
  /\ exists self',
       tokenize_body (Lexer_init (str " <<=1"))
       = Some (Continue BMultiOp self')
       /\ tokens self' = [mkToken OPERATOR (str "<<") 1 2]
       /\ pos self' = 3
       /\ remaining self' = str "=1".
Proof.
  assert (Hin : In (str "<<") multi_char_ops)
    by (apply in_words_In; reflexivity).
  split; [reflexivity|]. split; [reflexivity|]. split; [reflexivity|].
  split; [exact Hin|].
  exact (proj1 (proj1 two_char_operators_first
                  (Lexer_init (str " <<=1")) [SPACE] "<"%char (str "<=1")
                  eq_refl eq_refl eq_refl)
           "<"%char (str "=1") eq_refl Hin).
Defined.

(** C9, as stated, fails: the pair ["//"] is an entry of the two-character
    table, and yet on the source ["//"] the two characters are not
    consumed as an [OPERATOR] token but as a [COMMENT]; and on the source
    ["/*"], where the pair is no entry of the table and [/] is a
    one-character operator, the [/] is not consumed alone as an
    [OPERATOR] either. *)
Lemma comment_openers_are_not_operators :
  In (str "//") multi_char_ops
  /\ lex (str "//") = Some [mkToken COMMENT (str "//") 1 1]
  /\ ~ In (str "/*") multi_char_ops
  /\ in_chars "/"%char single_ops = true
  /\ lex (str "/*") = Some [mkToken COMMENT (str "/*") 1 1].
Proof.
  split; [apply in_words_In; reflexivity|]. split; [reflexivity|].
  split; [intros H; apply in_words_In in H; discriminate H|].
  split; reflexivity.
Qed.

(** * Strings *)

Section Strings.

Lemma string_span_cons q c r :
  string_span q (c :: r)
  = if Ascii.eqb c q then [c]
    else if Ascii.eqb c BACKSLASH then
      match r with
      | d :: r' => c :: d :: string_span q r'
      | [] => [c]
      end
    else c :: string_span q r.
Proof.
  unfold string_span. cbn [string_body].
  destruct (Ascii.eqb c q) eqn:Q; cbn [negb].
  - cbn [length skipn app string_close]. now rewrite Q.
  - destruct (Ascii.eqb c BACKSLASH).
    + destruct r as [|d r']; reflexivity.
    + reflexivity.
Qed.

Lemma string_closed_cons q c r :
  string_closed q (c :: r)
  = if Ascii.eqb c q then true
    else if Ascii.eqb c BACKSLASH then
      match r with
      | _ :: r' => string_closed q r'
      | [] => false
      end
    else string_closed q r.
Proof.
  unfold string_closed. cbn [string_body].
  destruct (Ascii.eqb c q) eqn:Q; cbn [negb].
  - cbn [length skipn string_close]. now rewrite Q.
  - destruct (Ascii.eqb c BACKSLASH).
    + destruct r as [|d r']; reflexivity.
    + reflexivity.
Qed.

Lemma string_span_chars q :
  BACKSLASH <> q ->
  forall n l,
    length l <= n ->
    StringChars q l (string_span q l) (string_closed q l).
Proof.
  intros Hq. induction n as [|n IH]; intros [|c r] Hl;
    try (simpl in Hl; lia); try apply SC_end_of_input.
  rewrite string_span_cons, string_closed_cons.
  destruct (Ascii.eqb c q) eqn:Q.
  { apply Ascii.eqb_eq in Q. subst c. apply SC_closing_quote. }
  apply Ascii.eqb_neq in Q.
  destruct (Ascii.eqb c BACKSLASH) eqn:B.
  - apply Ascii.eqb_eq in B. subst c.
    destruct r as [|d r']; [now apply SC_backslash_last|].
    apply SC_escape; [exact Hq|]. apply IH. simpl in Hl. lia.
  - apply Ascii.eqb_neq in B. apply SC_plain; auto.
    apply IH. simpl in Hl. lia.
Qed.

Lemma StringChars_shape q l v closed :
  StringChars q l v closed ->
  prefix_of v l
  /\ (closed = false -> v = l)
  /\ (closed = true -> exists body, v = body ++ [q]).
Proof.
  induction 1 as [|r|Hq|d r v closed Hq H IH|c r v closed Hc Hb H IH].
  - split; [apply prefix_of_nil|]. split; [reflexivity|discriminate].
  - split; [now exists r|]. split; [discriminate|]. now exists [].
  - split; [now exists []|]. split; [reflexivity|discriminate].
  - destruct IH as (Hp & Hf & Ht).
    split; [now do 2 apply prefix_of_cons|]. split.
    + intros Hcl. now rewrite (Hf Hcl).
    + intros Hcl. destruct (Ht Hcl) as [body ->].
      now exists (BACKSLASH :: d :: body).
  - destruct IH as (Hp & Hf & Ht).
    split; [now apply prefix_of_cons|]. split.
    + intros Hcl. now rewrite (Hf Hcl).
    + intros Hcl. destruct (Ht Hcl) as [body ->]. now exists (c :: body).
Qed.

Lemma quote_cases q :
  in_chars q [DQUOTE; SQUOTE] = true -> q = DQUOTE \/ q = SQUOTE.
Proof.
  unfold in_chars. cbn [existsb].
  rewrite !orb_true_iff, !Ascii.eqb_eq. intuition discriminate.
Qed.

Lemma lexeme_string q r :
  in_chars q [DQUOTE; SQUOTE] = true ->
  next_lexeme (q :: r) = (BString, STRING, q :: string_span q r).
Proof.
  intros H. destruct (quote_cases q H) as [-> | ->]; reflexivity.
Qed.

End Strings.

(** C6: when the dispatcher finds a double or a single quote after the
    skipped horizontal whitespace, the string branch appends exactly one
    [STRING] token.  Its value is the opening quote followed by the
    characters of the source, copied as they are: a backslash is copied
    together with the character behind it, whatever that is (so an escaped
    quote does not end the string), any other character that is not the
    opening quote is copied (so the other quote character does not end the
    string), and the scan ends either at the opening quote character,
    which then is the last character of the value, or at the end of the
    source, with everything up to there captured and no closing quote
    added. *)
Theorem string_token_scan :
  (forall self ws q r,
      forallb is_hspace ws = true ->
      in_chars q [DQUOTE; SQUOTE] = true ->
      remaining self = ws ++ q :: r ->
      exists self' v closed,
        tokenize_body self = Some (Continue BString self')
        /\ tokens self'
           = tokens self
             ++ [mkToken STRING (q :: v) (line self)
                   (column self + length ws)]
        /\ StringChars q r v closed
        /\ r = v ++ remaining self'
        /\ (closed = true -> exists body, v = body ++ [q])
        /\ (closed = false -> v = r /\ remaining self' = []))
  /\ lex ([DQUOTE] ++ str "a" ++ [BACKSLASH; DQUOTE] ++ str "b" ++ [DQUOTE])
     = Some [mkToken STRING
               ([DQUOTE] ++ str "a" ++ [BACKSLASH; DQUOTE] ++ str "b"
                ++ [DQUOTE]) 1 1]
  /\ lex ([DQUOTE] ++ str "it" ++ [SQUOTE] ++ str "s" ++ [DQUOTE])
     = Some [mkToken STRING
               ([DQUOTE] ++ str "it" ++ [SQUOTE] ++ str "s" ++ [DQUOTE]) 1 1]
  /\ lex ([SQUOTE] ++ str "abc")
     = Some [mkToken STRING ([SQUOTE] ++ str "abc") 1 1].
Proof.
  split; [|repeat split; reflexivity].
  intros self ws q r Hws Hq E.
  assert (Hqh : is_hspace q = false)
    by (destruct (quote_cases q Hq) as [-> | ->]; reflexivity).
  assert (Hqb : BACKSLASH <> q)
    by (destruct (quote_cases q Hq) as [-> | ->]; discriminate).
  destruct (tokenize_body_lexeme self ws q r Hws Hqh E)
    as (self' & Hb & Ht & _ & _ & Hr & _).
  unfold lexeme_branch, lexeme_type, lexeme_span in *.
  rewrite (lexeme_string _ _ Hq) in *.
  cbn [fst snd lexeme_value length skipn] in *.
  pose proof (string_span_chars q Hqb (length r) r (le_n _)) as Hsc.
  destruct (StringChars_shape _ _ _ _ Hsc) as (Hp & Hf & Hc).
  assert (Hsplit : r = string_span q r ++ remaining self')
    by (rewrite Hr; now apply prefix_of_skipn).
  exists self', (string_span q r), (string_closed q r).
  split; [exact Hb|]. split; [exact Ht|]. split; [exact Hsc|].
  split; [exact Hsplit|]. split; [exact Hc|].
  intros Hcl. specialize (Hf Hcl). split; [exact Hf|].
  rewrite Hf in Hsplit.
  apply (f_equal (@length ascii)) in Hsplit. rewrite length_app in Hsplit.
  destruct (remaining self'); [reflexivity|simpl in Hsplit; lia].
Qed.

Lemma string_token_scan_witness :
  forallb is_hspace [SPACE] = true
  /\ in_chars DQUOTE [DQUOTE; SQUOTE] = true
  /\ remaining (Lexer_init ([SPACE; DQUOTE] ++ str "hi" ++ [DQUOTE] ++ str ";"))
     = [SPACE] ++ DQUOTE :: (str "hi" ++ [DQUOTE] ++ str ";")
  /\ exists self' v closed,
       tokenize_body
         (Lexer_init ([SPACE; DQUOTE] ++ str "hi" ++ [DQUOTE] ++ str ";"))
       = Some (Continue BString self')
       /\ tokens self' = [mkToken STRING (DQUOTE :: v) 1 2]
       /\ StringChars DQUOTE (str "hi" ++ [DQUOTE] ++ str ";") v closed.
Proof.
  split; [reflexivity|]. split; [reflexivity|]. split; [reflexivity|].
  destruct (proj1 string_token_scan
              (Lexer_init ([SPACE; DQUOTE] ++ str "hi" ++ [DQUOTE] ++ str ";"))
              [SPACE] DQUOTE (str "hi" ++ [DQUOTE] ++ str ";")
              eq_refl eq_refl eq_refl)
    as (self' & v & closed & Hb & Ht & Hsc & _).
  exists self', v, closed.
  split; [exact Hb|]. split; [exact Ht|exact Hsc].
Defined.

(** * Further properties of the cursor *)

(** X1: reading at the cursor never fails: [current_char] is [None] exactly
    when the position is at or past the end of the source, [peek_char] is
    the current character of the advanced lexer (so it is [None] as soon
    as fewer than two characters are left), and [advance] moves the
    position by one even at the end of the source, where it leaves the line
    alone. *)
Theorem cursor_reads_within_bounds self :
  (current_char self = None <-> length (source self) <= pos self)
  /\ (forall c, current_char self = Some c <->
                nth_error (source self) (pos self) = Some c)
  /\ peek_char self = current_char (advance self)
  /\ (current_char self = None -> peek_char self = None)
  /\ pos (advance self) = pos self + 1
  /\ (current_char self = None ->
      line (advance self) = line self
      /\ column (advance self) = column self + 1).
Proof.
  assert (Hc : current_char self = nth_error (source self) (pos self)).
  { rewrite current_char_remaining. unfold remaining.
    symmetry. apply nth_error_hd_skipn. }
  split; [|split; [|split; [|split; [|split]]]].
  - rewrite Hc. apply nth_error_None.
  - intros c. now rewrite Hc.
  - now rewrite peek_char_remaining, current_char_remaining,
      remaining_advance.
  - rewrite peek_char_remaining, current_char_remaining.
    now destruct (remaining self).
  - unfold advance. now destruct (is_char (current_char self) NL).
  - intros H. unfold advance. rewrite H. simpl. auto.
Qed.

Lemma cursor_reads_within_bounds_witness :
  current_char (mkLexer (str "ab") 2 1 3 []) = None
  /\ peek_char (mkLexer (str "ab") 2 1 3 []) = None
  /\ line (advance (mkLexer (str "ab") 2 1 3 [])) = 1
  /\ column (advance (mkLexer (str "ab") 2 1 3 [])) = 3 + 1.
Proof.
  destruct (cursor_reads_within_bounds (mkLexer (str "ab") 2 1 3 []))
    as (_ & _ & _ & Hp & _ & Ha).
  split; [reflexivity|]. split; [exact (Hp eq_refl)|]. exact (Ha eq_refl).
Defined.

(** X2: [skip_whitespace] always returns; it moves the cursor over the
    maximal run of spaces, tabs and carriage returns at the cursor and
    over nothing else: the line and the tokens are unchanged, position and
    column grow by the length of the run, and afterwards the current
    character, if there is one, is none of the three (a newline is never
    skipped). *)
Theorem skip_whitespace_stays_on_line self :
  exists self',
    skip_whitespace self = Some self'
    /\ source self' = source self
    /\ tokens self' = tokens self
    /\ line self' = line self
    /\ pos self'
       = pos self + length (take_while is_hspace (remaining self))
    /\ column self'
       = column self + length (take_while is_hspace (remaining self))
    /\ remaining self
       = take_while is_hspace (remaining self) ++ remaining self'
    /\ (forall c, current_char self' = Some c ->
                  c <> SPACE /\ c <> TAB /\ c <> CR).
Proof.
  set (ws := take_while is_hspace (remaining self)).
  exists (consume ws self). rewrite skip_whitespace_spec. fold ws.
  assert (Hr : remaining (consume ws self)
               = drop_while is_hspace (remaining self)).
  { apply remaining_consume. symmetry. apply take_drop_while. }
  pose proof (loc_consume ws self) as Hl.
  rewrite (loc_after_hspace ws _ (take_while_forallb _ _)) in Hl.
  injection Hl as Hl Hc. cbn [fst snd] in Hl, Hc.
  repeat split; auto.
  - rewrite Hr. symmetry. apply take_drop_while.
  - intros ->. rewrite current_char_remaining, Hr in H.
    now apply drop_while_head in H.
  - intros ->. rewrite current_char_remaining, Hr in H.
    now apply drop_while_head in H.
  - intros ->. rewrite current_char_remaining, Hr in H.
    now apply drop_while_head in H.
Qed.

Section FinalState.

Lemma drop_while_all f l : forallb f l = true -> drop_while f l = [].
Proof.
  induction l as [|c r IH]; simpl; auto.
  intros H. apply andb_true_iff in H as [-> Hr]. auto.
Qed.

(** The loop ends with the cursor advanced over all that was left. *)
Lemma tokenize_loop_cursor fuel : forall self,
  length (remaining self) <= fuel ->
  exists self',
    tokenize_loop fuel self = Some self'
    /\ source self' = source self
    /\ pos self' = pos self + length (remaining self)
    /\ (line self', column self')
       = loc_after (line self, column self) (remaining self)
    /\ exists more, tokens self' = tokens self ++ more.
Proof.
  induction fuel as [|fuel IH]; intros self Hf.
  - destruct (remaining self) as [|c r] eqn:E; [|simpl in Hf; lia].
    exists self. simpl. rewrite loop_guard, E. simpl.
    repeat split; auto. exists []. now rewrite app_nil_r.
  - cbn [tokenize_loop]. rewrite loop_guard.
    destruct (remaining self) as [|c0 r0] eqn:E.
    { exists self. simpl. repeat split; auto.
      exists []. now rewrite app_nil_r. }
    rewrite tokenize_body_spec, E.
    pose proof (take_drop_while is_hspace (c0 :: r0)) as Hsplit.
    set (ws := take_while is_hspace (c0 :: r0)) in *.
    destruct (drop_while is_hspace (c0 :: r0)) as [|ch r] eqn:D.
    { exists (consume ws self). rewrite app_nil_r in Hsplit.
      rewrite <- Hsplit. split; [reflexivity|].
      split; [reflexivity|]. split; [reflexivity|].
      split; [apply loc_consume|]. exists []. now rewrite app_nil_r. }
    set (l := ch :: r) in *.
    pose proof (prefix_of_skipn _ _ (lexeme_span_prefix l)) as Hl.
    pose proof (lexeme_span_nonempty ch r) as Hne. fold l in Hne.
    set (rest := skipn (length (lexeme_span l)) l) in *.
    assert (Er : remaining (after_lexeme (consume ws self) l) = rest).
    { unfold after_lexeme. rewrite remaining_add_token.
      apply remaining_consume. rewrite <- Hl.
      apply remaining_consume. now rewrite E. }
    assert (Hlen : length (c0 :: r0)
                   = length ws + length (lexeme_span l) + length rest).
    { apply (f_equal (@length ascii)) in Hsplit, Hl.
      rewrite length_app in Hsplit, Hl. lia. }
    assert (0 < length (lexeme_span l))
      by (destruct (lexeme_span l); [congruence|simpl; lia]).
    destruct (IH (after_lexeme (consume ws self) l))
      as (self' & Hrun & Hsrc & Hpos & Hloc & more & Htok).
    { rewrite Er. lia. }
    exists self'. split; [exact Hrun|]. split; [exact Hsrc|].
    rewrite Er, pos_after_lexeme, loc_after_lexeme in *.
    split; [lia|]. split.
    + assert (Hall : c0 :: r0 = ws ++ lexeme_span l ++ rest)
        by (rewrite <- Hsplit; f_equal; exact Hl).
      now rewrite Hloc, Hall, !loc_after_app.
    + eexists. rewrite Htok. unfold after_lexeme, add_token, consume.
      cbn [tokens]. now rewrite <- app_assoc.
Qed.

Lemma loc_after_last_line p :
  exists cur,
    last_line_of p cur
    /\ loc_after (1, 1) p = (1 + newlines p, 1 + length cur).
Proof.
  unfold last_line_of, newlines.
  induction p as [|c p IH] using rev_ind.
  - exists []. split; [exists []; auto|reflexivity].
  - destruct IH as (cur & (before & Hp & Hn & Hb) & Hloc).
    rewrite loc_after_app, Hloc. cbn [loc_after fold_left].
    unfold step_loc. cbn [fst snd]. rewrite count_occ_app.
    destruct (Ascii.eqb c NL) eqn:E.
    + apply Ascii.eqb_eq in E. subst c.
      exists []. split.
      * exists (p ++ [NL]). rewrite app_nil_r. split; [reflexivity|].
        split; [intros []|]. right. now exists p.
      * rewrite count_occ_cons_eq by reflexivity. simpl. f_equal; lia.
    + apply Ascii.eqb_neq in E.
      exists (cur ++ [c]). split.
      * exists before. split; [now rewrite Hp, app_assoc|].
        split; [|exact Hb].
        intros H. apply in_app_or in H as [H|[H|[]]]; auto.
      * rewrite count_occ_cons_neq by congruence.
        rewrite length_app. simpl. f_equal; lia.
Qed.

Lemma cursor_none_at_end self :
  length (source self) <= pos self -> current_char self = None.
Proof.
  intros H. rewrite current_char_remaining.
  unfold remaining. now rewrite skipn_all2.
Qed.

(** Two lexers with the same text left and the same line and column run
    the loop in step. *)
Lemma tokenize_loop_resume fuel : forall self1 self2,
  length (remaining self1) <= fuel ->
  remaining self1 = remaining self2 ->
  line self1 = line self2 ->
  column self1 = column self2 ->
  exists s1 s2 more,
    tokenize_loop fuel self1 = Some s1
    /\ tokenize_loop fuel self2 = Some s2
    /\ tokens s1 = tokens self1 ++ more
    /\ tokens s2 = tokens self2 ++ more.
Proof.
  induction fuel as [|fuel IH]; intros self1 self2 Hf Hr Hl Hc.
  - destruct (remaining self1) as [|c r] eqn:E; [|simpl in Hf; lia].
    exists self1, self2, []. simpl. rewrite !loop_guard, <- Hr, E.
    now rewrite !app_nil_r.
  - cbn [tokenize_loop]. rewrite !loop_guard, <- Hr.
    destruct (remaining self1) as [|c0 r0] eqn:E.
    { exists self1, self2, []. now rewrite !app_nil_r. }
    rewrite !tokenize_body_spec, <- Hr, E.
    pose proof (take_drop_while is_hspace (c0 :: r0)) as Hsplit.
    set (ws := take_while is_hspace (c0 :: r0)) in *.
    destruct (drop_while is_hspace (c0 :: r0)) as [|ch r] eqn:D.
    { exists (consume ws self1), (consume ws self2), [].
      now rewrite !app_nil_r. }
    set (l := ch :: r) in *.
    pose proof (prefix_of_skipn _ _ (lexeme_span_prefix l)) as Hpre.
    pose proof (lexeme_span_nonempty ch r) as Hne. fold l in Hne.
    set (rest := skipn (length (lexeme_span l)) l) in *.
    assert (Er : forall s, remaining s = c0 :: r0 ->
                 remaining (after_lexeme (consume ws s) l) = rest).
    { intros s Es. unfold after_lexeme. rewrite remaining_add_token.
      apply remaining_consume. rewrite <- Hpre.
      apply remaining_consume. now rewrite Es. }
    assert (L : (line (consume ws self1), column (consume ws self1))
                = (line (consume ws self2), column (consume ws self2)))
      by (rewrite !loc_consume; now rewrite Hl, Hc).
    assert (A : (line (after_lexeme (consume ws self1) l),
                 column (after_lexeme (consume ws self1) l))
                = (line (after_lexeme (consume ws self2) l),
                   column (after_lexeme (consume ws self2) l)))
      by (rewrite !loc_after_lexeme; now rewrite Hl, Hc).
    pose proof (f_equal fst L) as Hl'. pose proof (f_equal snd L) as Hc'.
    cbn [fst snd] in Hl', Hc'.
    destruct (IH (after_lexeme (consume ws self1) l)
                (after_lexeme (consume ws self2) l))
      as (s1 & s2 & more & H1 & H2 & T1 & T2).
    + rewrite (Er self1 E).
      apply (f_equal (@length ascii)) in Hsplit, Hpre.
      rewrite length_app in Hsplit, Hpre.
      assert (0 < length (lexeme_span l))
        by (destruct (lexeme_span l); [congruence|simpl; lia]).
      lia.
    + rewrite (Er self1 E), (Er self2) by now rewrite <- Hr.
      reflexivity.
    + exact (f_equal fst A).
    + exact (f_equal snd A).
    + exists s1, s2,
        (mkToken (lexeme_type l)
           (lexeme_value (lexeme_type l) (lexeme_span l))
           (line (consume ws self1)) (column (consume ws self1)) :: more).
      split; [exact H1|]. split; [exact H2|].
      rewrite T1, T2. unfold after_lexeme, add_token.
      cbn [tokens]. rewrite <- !app_assoc, Hl', Hc'. cbn [app].
      split; reflexivity.
Qed.

End FinalState.

Lemma skip_whitespace_stays_on_line_witness :
  exists self',
    skip_whitespace (Lexer_init ([SPACE; TAB; CR; NL] ++ str " x"))
    = Some self'
    /\ line self' = 1
    /\ pos self' = 3
    /\ column self' = 4
    /\ (current_char self' = Some NL ->
        NL <> SPACE /\ NL <> TAB /\ NL <> CR).
Proof.
  destruct (skip_whitespace_stays_on_line
              (Lexer_init ([SPACE; TAB; CR; NL] ++ str " x")))
    as (self' & Hs & _ & _ & Hl & Hp & Hc & _ & Hn).
  exists self'. split; [exact Hs|]. split; [exact Hl|].
  split; [exact Hp|]. split; [exact Hc|]. exact (Hn NL).
Defined.

(** X3: a fresh lexer that has run [tokenize] stands exactly at the end
    of its source, never beyond it (no sub-scanner advances past the end):
    the source is unchanged, the position is the length of the source,
    the line is one more than the number of newline characters of the
    source, the column is one more than the length of its last line, and
    there is no current character.  Running [tokenize] again on that lexer
    returns the same token list, with nothing appended. *)
Theorem tokenize_stops_at_end_of_source src :
  exists self',
    tokenize_loop (budget (Lexer_init src)) (Lexer_init src) = Some self'
    /\ lex src = Some (tokens self')
    /\ source self' = src
    /\ pos self' = length src
    /\ current_char self' = None
    /\ line self' = 1 + newlines src
    /\ (exists cur, last_line_of src cur /\ column self' = 1 + length cur)
    /\ tokenize_loop (budget self') self' = Some self'
    /\ tokenize self' = Some (tokens self').
Proof.
  destruct (tokenize_loop_cursor (budget (Lexer_init src)) (Lexer_init src))
    as (self' & Hrun & Hsrc & Hpos & Hloc & _).
  { rewrite budget_remaining. lia. }
  change (remaining (Lexer_init src)) with src in *.
  cbn [Lexer_init source pos line column] in *.
  destruct (loc_after_last_line src) as (cur & Hcur & Hlc).
  rewrite Hlc in Hloc. injection Hloc as Hline Hcol.
  assert (Hnone : current_char self' = None).
  { apply cursor_none_at_end. rewrite Hsrc, Hpos. lia. }
  assert (Hagain : tokenize_loop (budget self') self' = Some self').
  { unfold budget. rewrite Hsrc, Hpos, Nat.sub_diag. cbn [tokenize_loop].
    rewrite Hsrc, Hpos, Nat.ltb_irrefl. reflexivity. }
  exists self'. split; [exact Hrun|].
  split; [unfold lex, tokenize; now rewrite Hrun|].
  split; [exact Hsrc|]. split; [exact Hpos|]. split; [exact Hnone|].
  split; [exact Hline|]. split; [now exists cur|].
  split; [exact Hagain|]. unfold tokenize. now rewrite Hagain.
Qed.

(** X4: what [tokenize] appends depends only on the text that is left and
    on the line and column counters: two lexers that agree on these (they
    may differ in position, in the text already read and in the tokens
    they hold) get the same tokens appended, each behind the tokens it
    already holds, which it keeps in place. *)
Theorem tokenize_depends_on_remaining_text self1 self2 :
  remaining self1 = remaining self2 ->
  line self1 = line self2 ->
  column self1 = column self2 ->
  exists more,
    tokenize self1 = Some (tokens self1 ++ more)
    /\ tokenize self2 = Some (tokens self2 ++ more).
Proof.
  intros Hr Hl Hc.
  destruct (tokenize_loop_resume (budget self1) self1 self2)
    as (s1 & s2 & more & H1 & H2 & T1 & T2); auto.
  { rewrite budget_remaining. lia. }
  exists more. unfold tokenize.
  assert (Hb : budget self2 = budget self1)
    by (rewrite !budget_remaining; now rewrite Hr).
  rewrite Hb, H1, H2. cbn [option_map]. now rewrite T1, T2.
Qed.

Lemma tokenize_depends_on_remaining_text_witness :
  remaining (mkLexer (str "ab cd") 3 1 4 [mkToken IDENTIFIER (str "ab") 1 1])
  = remaining (mkLexer (str "cd") 0 1 4 [])
  /\ exists more,
       tokenize
         (mkLexer (str "ab cd") 3 1 4 [mkToken IDENTIFIER (str "ab") 1 1])
       = Some ([mkToken IDENTIFIER (str "ab") 1 1] ++ more)
       /\ tokenize (mkLexer (str "cd") 0 1 4 []) = Some ([] ++ more).
Proof.
  split; [reflexivity|].
  apply (tokenize_depends_on_remaining_text
           (mkLexer (str "ab cd") 3 1 4 [mkToken IDENTIFIER (str "ab") 1 1])
           (mkLexer (str "cd") 0 1 4 []));
    reflexivity.
Defined.

(** X5: the line and column of every token are those of its first
    character, counted from 1: every token of the output starts at an
    offset of the source where its non-empty span is read (the span is
    the value of the token, or the newline character for a [NEWLINE]
    token); the line of the token is one more than the number of newline
    characters in front of that offset, and its column is one more than
    the number of characters between the last of these newlines (or the
    start of the source) and that offset. *)
Theorem token_positions_count_lines_and_columns src :
  exists items,
    lex src = Some (map item_token items)
    /\ Forall
         (fun it =>
            item_offset it < length src
            /\ item_span it <> []
            /\ prefix_of (item_span it) (skipn (item_offset it) src)
            /\ reads (item_token it) (item_span it)
            /\ tok_line (item_token it)
               = 1 + newlines (firstn (item_offset it) src)
            /\ exists cur,
                 last_line_of (firstn (item_offset it) src) cur
                 /\ tok_column (item_token it) = 1 + length cur)
         items
    /\ StronglySorted (fun a b => item_offset a < item_offset b) items.
Proof.
  destruct (lex_scanned src) as (items & Hl & Hsc).
  exists items. split; [exact Hl|].
  destruct (Scanned_ordered _ _ _ _ Hsc src [] eq_refl eq_refl eq_refl)
    as (Hst & _ & Hso & _).
  split; [|exact Hso].
  eapply Forall_impl; [|exact Hst].
  intros it (Hoff & Hp & Hne & Hr & Hloc).
  destruct (loc_after_last_line (firstn (item_offset it) src))
    as (cur & Hcur & Hlc).
  rewrite Hlc in Hloc. unfold tok_loc in Hloc. injection Hloc as Hline Hcol.
  split; [exact Hoff|]. split; [exact Hne|]. split; [exact Hp|].
  split; [exact Hr|]. split; [exact Hline|]. now exists cur.
Qed.

(** * The shape of the emitted tokens *)

Section Shapes.

Ltac chain ch r :=
  unfold lexeme_type, lexeme_span, next_lexeme;
  destruct (Ascii.eqb ch NL) eqn:Hnl;
  [|destruct (Ascii.eqb ch HASH) eqn:Hhash;
  [|destruct (Ascii.eqb ch SLASH && is_char (hd_error r) SLASH) eqn:Hline;
  [|destruct (Ascii.eqb ch SLASH && is_char (hd_error r) STAR) eqn:Hblock;
  [|destruct (isdigit ch) eqn:Hdig;
  [|destruct (isalpha ch || Ascii.eqb ch UNDERSCORE) eqn:Hword;
  [|destruct (in_chars ch [DQUOTE; SQUOTE]) eqn:Hquote;
  [|destruct (two_char_lookup ch r) as [two|] eqn:Htwo;
  [|destruct (in_chars ch single_ops) eqn:Hop;
  [|destruct (in_chars ch delimiters) eqn:Hdel]]]]]]]]];
  cbn [fst snd].

(** What the type of a lexeme tells about the text it was read from. *)
Lemma lexeme_inv ch r :
  match lexeme_type (ch :: r) with
  | NEWLINE => ch = NL /\ lexeme_span (ch :: r) = [NL]
  | PREPROCESSOR =>
      ch = HASH /\ lexeme_span (ch :: r) = HASH :: take_while not_newline r
  | COMMENT =>
      (exists r', r = SLASH :: r' /\ ch = SLASH
                  /\ lexeme_span (ch :: r)
                     = SLASH :: SLASH :: take_while not_newline r')
      \/ (exists r', r = STAR :: r' /\ ch = SLASH
                     /\ lexeme_span (ch :: r)
                        = SLASH :: STAR :: block_body r')
  | INTEGER =>
      isdigit ch = true
      /\ lexeme_span (ch :: r) = fst (number_lexeme (ch :: r))
      /\ snd (number_lexeme (ch :: r)) = false
  | FLOAT =>
      isdigit ch = true
      /\ lexeme_span (ch :: r) = fst (number_lexeme (ch :: r))
      /\ snd (number_lexeme (ch :: r)) = true
  | KEYWORD =>
      isalpha ch || Ascii.eqb ch UNDERSCORE = true
      /\ lexeme_span (ch :: r) = take_while is_word_char (ch :: r)
      /\ In (lexeme_span (ch :: r)) TOKEN_TYPES_KEYWORD
  | IDENTIFIER =>
      isalpha ch || Ascii.eqb ch UNDERSCORE = true
      /\ lexeme_span (ch :: r) = take_while is_word_char (ch :: r)
      /\ ~ In (lexeme_span (ch :: r)) TOKEN_TYPES_KEYWORD
  | STRING =>
      in_chars ch [DQUOTE; SQUOTE] = true
      /\ lexeme_span (ch :: r) = ch :: string_span ch r
  | OPERATOR =>
      (exists nx r', r = nx :: r' /\ lexeme_span (ch :: r) = [ch; nx]
                     /\ In [ch; nx] multi_char_ops
                     /\ [ch; nx] <> [SLASH; SLASH])
      \/ (lexeme_span (ch :: r) = [ch] /\ in_chars ch single_ops = true)
  | DELIMITER =>
      lexeme_span (ch :: r) = [ch]
      /\ in_chars ch delimiters = true
      /\ in_chars ch single_ops = false
  | UNKNOWN =>
      lexeme_span (ch :: r) = [ch]
      /\ Ascii.eqb ch NL = false /\ Ascii.eqb ch HASH = false
      /\ isdigit ch = false
      /\ isalpha ch || Ascii.eqb ch UNDERSCORE = false
      /\ in_chars ch [DQUOTE; SQUOTE] = false
      /\ in_chars ch single_ops = false
      /\ in_chars ch delimiters = false
  end.
Proof.
  chain ch r.
  - apply Ascii.eqb_eq in Hnl. now subst.
  - apply Ascii.eqb_eq in Hhash. now subst.
  - apply andb_true_iff in Hline as [Hc Hd].
    apply Ascii.eqb_eq in Hc. subst ch.
    destruct r as [|d r']; [discriminate|]. simpl in Hd.
    apply Ascii.eqb_eq in Hd. subst d. left. now exists r'.
  - apply andb_true_iff in Hblock as [Hc Hd].
    apply Ascii.eqb_eq in Hc. subst ch.
    destruct r as [|d r']; [discriminate|]. simpl in Hd.
    apply Ascii.eqb_eq in Hd. subst d. right. now exists r'.
  - rewrite number_span_false.
    now destruct (snd (number_lexeme (ch :: r))) eqn:F.
  - destruct (in_words (take_while is_word_char (ch :: r))
                TOKEN_TYPES_KEYWORD) eqn:W.
    + apply in_words_In in W. auto.
    + repeat split; auto. intros H. apply in_words_In in H. congruence.
  - auto.
  - destruct (two_char_lookup_some _ _ _ Htwo) as (nx & r' & -> & -> & W).
    left. exists nx, r'. apply in_words_In in W.
    repeat split; auto. intros [= -> ->]. discriminate Hline.
  - right. auto.
  - auto.
  - repeat split; auto.
Qed.

Lemma take_while_In f l c : In c (take_while f l) -> f c = true.
Proof.
  induction l as [|x l IH]; simpl; [intros []|].
  destruct (f x) eqn:E; [|intros []].
  intros [<-|H]; auto.
Qed.

(** A property of the tokens of every lexeme that does not start with
    horizontal whitespace holds of all the tokens a run appends. *)
Lemma tokenize_loop_tokens (P : Token -> Prop) :
  (forall ch r l c,
      is_hspace ch = false ->
      P (mkToken (lexeme_type (ch :: r))
           (lexeme_value (lexeme_type (ch :: r)) (lexeme_span (ch :: r)))
           l c)) ->
  forall fuel self,
    length (remaining self) <= fuel ->
    exists self' more,
      tokenize_loop fuel self = Some self'
      /\ tokens self' = tokens self ++ more
      /\ Forall P more.
Proof.
  intros HP. induction fuel as [|fuel IH]; intros self Hf.
  - destruct (remaining self) as [|c r] eqn:E; [|simpl in Hf; lia].
    exists self, []. simpl. rewrite loop_guard, E, app_nil_r. auto.
  - cbn [tokenize_loop]. rewrite loop_guard.
    destruct (remaining self) as [|c0 r0] eqn:E.
    { exists self, []. rewrite app_nil_r. auto. }
    rewrite tokenize_body_spec, E.
    pose proof (take_drop_while is_hspace (c0 :: r0)) as Hsplit.
    set (ws := take_while is_hspace (c0 :: r0)) in *.
    destruct (drop_while is_hspace (c0 :: r0)) as [|ch r] eqn:D.
    { exists (consume ws self), []. rewrite app_nil_r. auto. }
    assert (Hch : is_hspace ch = false).
    { apply (drop_while_head is_hspace (c0 :: r0)). now rewrite D. }
    set (l := ch :: r) in *.
    pose proof (prefix_of_skipn _ _ (lexeme_span_prefix l)) as Hl.
    pose proof (lexeme_span_nonempty ch r) as Hne. fold l in Hne.
    set (rest := skipn (length (lexeme_span l)) l) in *.
    assert (Er : remaining (after_lexeme (consume ws self) l) = rest).
    { unfold after_lexeme. rewrite remaining_add_token.
      apply remaining_consume. rewrite <- Hl.
      apply remaining_consume. now rewrite E. }
    destruct (IH (after_lexeme (consume ws self) l))
      as (self' & more & Hrun & Htok & Hall).
    { rewrite Er. apply (f_equal (@length ascii)) in Hsplit, Hl.
      rewrite length_app in Hsplit, Hl.
      assert (0 < length (lexeme_span l))
        by (destruct (lexeme_span l); [congruence|simpl; lia]).
      lia. }
    exists self',
      (mkToken (lexeme_type l) (lexeme_value (lexeme_type l) (lexeme_span l))
         (line (consume ws self)) (column (consume ws self)) :: more).
    split; [exact Hrun|]. split.
    + rewrite Htok. unfold after_lexeme, add_token. cbn [tokens].
      now rewrite <- app_assoc.
    + constructor; [|exact Hall]. now apply HP.
Qed.

Lemma lex_tokens (P : Token -> Prop) :
  (forall ch r l c,
      is_hspace ch = false ->
      P (mkToken (lexeme_type (ch :: r))
           (lexeme_value (lexeme_type (ch :: r)) (lexeme_span (ch :: r)))
           l c)) ->
  forall src, exists toks, lex src = Some toks /\ Forall P toks.
Proof.
  intros HP src.
  destruct (tokenize_loop_tokens P HP (budget (Lexer_init src))
              (Lexer_init src))
    as (self' & more & Hrun & Htok & Hall).
  { rewrite budget_remaining. lia. }
  exists more. unfold lex, tokenize. rewrite Hrun. cbn [option_map].
  now rewrite Htok.
Qed.

Lemma number_lexeme_shape l :
  (snd (number_lexeme l) = false ->
   forallb isdigit (fst (number_lexeme l)) = true)
  /\ (snd (number_lexeme l) = true ->
      exists b,
        fst (number_lexeme l) = take_while isdigit l ++ DOT :: b
        /\ forallb isdigit b = true).
Proof.
  unfold number_lexeme.
  destruct (drop_while isdigit l) as [|c r2]; cbn [fst snd].
  - split; [intros _; apply take_while_forallb|discriminate].
  - destruct (Ascii.eqb c DOT); cbn [fst snd].
    + split; [discriminate|]. intros _.
      exists (take_while isdigit r2). split; auto.
      apply take_while_forallb.
    + split; [intros _; apply take_while_forallb|discriminate].
Qed.

End Shapes.

Section BlockComments.

Lemma block_body_first_close : forall l,
  (exists i,
      star_slash_at l i
      /\ (forall j, j < i -> ~ star_slash_at l j)
      /\ block_body l = firstn (i + 2) l)
  \/ ((forall j, ~ star_slash_at l j) /\ block_body l = l).
Proof.
  unfold star_slash_at.
  induction l as [|c r IH].
  - right. split; [|reflexivity]. intros [|j] [H _]; discriminate.
  - cbn [block_body].
    destruct (Ascii.eqb c STAR && is_char (hd_error r) SLASH) eqn:B.
    + apply andb_true_iff in B as [Bc Bd].
      apply Ascii.eqb_eq in Bc. subst c.
      destruct r as [|d r']; [discriminate|]. simpl in Bd.
      apply Ascii.eqb_eq in Bd. subst d.
      left. exists 0. split; [split; reflexivity|].
      split; [intros j Hj; lia|reflexivity].
    + assert (H0 : ~ (nth_error (c :: r) 0 = Some STAR
                      /\ nth_error (c :: r) 1 = Some SLASH)).
      { intros [Hc Hd]. injection Hc as ->.
        destruct r as [|d r']; [discriminate|]. injection Hd as ->.
        discriminate B. }
      destruct IH as [(i & Hi & Hmin & Hb)|(Hno & Hb)].
      * left. exists (S i). split; [exact Hi|]. split.
        -- intros [|j] Hj; [exact H0|]. apply Hmin. lia.
        -- now rewrite Hb.
      * right. split; [|now rewrite Hb].
        intros [|j]; [exact H0|]. apply Hno.
Qed.

Lemma loc_after_line p : forall lc,
  fst (loc_after lc p) = fst lc + newlines p.
Proof.
  unfold newlines.
  induction p as [|c p IH]; intros lc; simpl; [lia|].
  rewrite IH. unfold step_loc.
  destruct (ascii_dec c NL) as [->|Hc].
  - simpl. lia.
  - apply Ascii.eqb_neq in Hc. rewrite Hc. simpl. lia.
Qed.

Lemma lexeme_block_comment r :
  next_lexeme (SLASH :: STAR :: r)
  = (BBlockComment, COMMENT, SLASH :: STAR :: block_body r).
Proof. reflexivity. Qed.

End BlockComments.

(** X6: when the dispatcher finds ["/*"] after the skipped horizontal
    whitespace, the block-comment branch appends one [COMMENT] token whose
    value is ["/*"] followed by the text up to and including the first
    ["*/"] that starts behind the opener (the [*] of the opener closes
    nothing, so ["/*/"] is not a closed comment); when no ["*/"] follows,
    the value is ["/*"] and all the rest of the source, and the cursor is
    at the end.  The token carries the position of the ["/"], and the line
    of the cursor grows by the number of newline characters in the
    comment. *)
Theorem block_comment_scan self ws r :
  forallb is_hspace ws = true ->
  remaining self = ws ++ SLASH :: STAR :: r ->
  exists self' body,
    tokenize_body self = Some (Continue BBlockComment self')
    /\ tokens self'
       = tokens self
         ++ [mkToken COMMENT (SLASH :: STAR :: body) (line self)
               (column self + length ws)]
    /\ r = body ++ remaining self'
    /\ ((exists i,
            star_slash_at r i
            /\ (forall j, j < i -> ~ star_slash_at r j)
            /\ body = firstn (i + 2) r)
        \/ ((forall j, ~ star_slash_at r j)
            /\ body = r /\ remaining self' = []))
    /\ line self' = line self + newlines body.
Proof.
  intros Hws E.
  destruct (tokenize_body_lexeme self ws SLASH (STAR :: r) Hws eq_refl E)
    as (self' & Hb & Ht & _ & _ & Hr & Hlc).
  unfold lexeme_branch, lexeme_type, lexeme_span in *.
  rewrite lexeme_block_comment in *.
  cbn [fst snd lexeme_value length skipn] in *.
  assert (Hsplit : r = block_body r ++ remaining self').
  { rewrite Hr. apply prefix_of_skipn, block_body_prefix. }
  exists self', (block_body r).
  split; [exact Hb|]. split; [exact Ht|]. split; [exact Hsplit|]. split.
  - destruct (block_body_first_close r) as [H|[Hno Hall]]; [now left|].
    right. split; [exact Hno|]. split; [exact Hall|].
    rewrite Hall in Hsplit.
    apply (f_equal (@length ascii)) in Hsplit.
    rewrite length_app in Hsplit.
    destruct (remaining self'); [reflexivity|simpl in Hsplit; lia].
  - apply (f_equal fst) in Hlc. cbn [fst] in Hlc.
    rewrite Hlc, loc_after_line. cbn [fst]. unfold newlines.
    now rewrite !count_occ_cons_neq by discriminate.
Qed.

Lemma block_comment_scan_witness :
  forallb is_hspace [SPACE] = true
  /\ remaining (Lexer_init (str " /*/a" ++ [NL] ++ str "*/b"))
     = [SPACE] ++ SLASH :: STAR :: (str "/a" ++ [NL] ++ str "*/b")
  /\ exists self' body,
       tokenize_body (Lexer_init (str " /*/a" ++ [NL] ++ str "*/b"))
       = Some (Continue BBlockComment self')
       /\ tokens self' = [mkToken COMMENT (SLASH :: STAR :: body) 1 2]
       /\ str "/a" ++ [NL] ++ str "*/b" = body ++ remaining self'
       /\ line self' = 1 + newlines body.
Proof.
  split; [reflexivity|]. split; [reflexivity|].
  destruct (block_comment_scan
              (Lexer_init (str " /*/a" ++ [NL] ++ str "*/b")) [SPACE]
              (str "/a" ++ [NL] ++ str "*/b") eq_refl eq_refl)
    as (self' & body & Hb & Ht & Hs & _ & Hl).
  exists self', body.
  split; [exact Hb|]. split; [exact Ht|]. split; [exact Hs|exact Hl].
Defined.

(** X7: in every output, the value of an [INTEGER] token is a non-empty
    run of digits, and the value of a [FLOAT] token is a non-empty run of
    digits, one [.], and a run of digits that may be empty (["1."] is a
    [FLOAT]); so a number token never starts with a [.], has no sign and
    no exponent. *)
Theorem number_tokens_are_digit_runs src :
  exists toks,
    lex src = Some toks
    /\ Forall
         (fun t =>
            (tok_type t = INTEGER ->
             tok_value t <> [] /\ forallb isdigit (tok_value t) = true)
            /\ (tok_type t = FLOAT ->
                exists a b,
                  tok_value t = a ++ DOT :: b
                  /\ a <> []
                  /\ forallb isdigit a = true
                  /\ forallb isdigit b = true))
         toks.
Proof.
  apply lex_tokens. intros ch r l c _. cbn [tok_type tok_value].
  pose proof (lexeme_inv ch r) as Hinv.
  pose proof (lexeme_span_nonempty ch r) as Hne.
  destruct (lexeme_type (ch :: r)) eqn:T; cbn [lexeme_value];
    split; try discriminate; intros _.
  - destruct Hinv as (Hd & Hs & Hf). split; [exact Hne|].
    rewrite Hs. now apply number_lexeme_shape.
  - destruct Hinv as (Hd & Hs & Hf).
    destruct (proj2 (number_lexeme_shape (ch :: r)) Hf) as (b & Hv & Hb).
    exists (take_while isdigit (ch :: r)), b.
    split; [now rewrite Hs|]. split.
    + cbn [take_while]. rewrite Hd. discriminate.
    + split; [apply take_while_forallb|exact Hb].
Qed.

Lemma number_tokens_are_digit_runs_witness :
  exists a b,
    str "1." = a ++ DOT :: b
    /\ a <> []
    /\ forallb isdigit a = true
    /\ forallb isdigit b = true.
Proof.
  destruct (number_tokens_are_digit_runs (str "1.")) as (toks & Hl & HF).
  change (lex (str "1.")) with (Some [mkToken FLOAT (str "1.") 1 1]) in Hl.
  injection Hl as <-.
  exact (proj2 (Forall_inv HF) eq_refl).
Defined.

(** X8: in every output, the value of a [KEYWORD] token is an entry of the
    keyword list and the value of an [IDENTIFIER] token is not; both start
    with a letter or an underscore (never with a digit) and consist of
    letters, digits and underscores only. *)
Theorem word_tokens_are_classified src :
  exists toks,
    lex src = Some toks
    /\ Forall
         (fun t =>
            (tok_type t = KEYWORD -> In (tok_value t) TOKEN_TYPES_KEYWORD)
            /\ (tok_type t = IDENTIFIER ->
                ~ In (tok_value t) TOKEN_TYPES_KEYWORD)
            /\ (tok_type t = KEYWORD \/ tok_type t = IDENTIFIER ->
                (exists c w,
                    tok_value t = c :: w
                    /\ isalpha c || Ascii.eqb c UNDERSCORE = true)
                /\ forallb is_word_char (tok_value t) = true))
         toks.
Proof.
  apply lex_tokens. intros ch r l c _. cbn [tok_type tok_value].
  pose proof (lexeme_inv ch r) as Hinv.
  pose proof (lexeme_span_head ch r) as Hh.
  destruct (lexeme_type (ch :: r)) eqn:T; cbn [lexeme_value];
    (split; [|split]); try discriminate;
    try (intros [H|H]; discriminate H);
    destruct Hinv as (Hw & Hs & Hin); try (intros _; exact Hin);
    intros _; (split; [|rewrite Hs; apply take_while_forallb]);
    destruct (lexeme_span (ch :: r)) as [|x w]; try discriminate;
    injection Hh as ->; now exists ch, w.
Qed.

Lemma word_tokens_are_classified_witness :
  In (str "while") TOKEN_TYPES_KEYWORD
  /\ ~ In (str "While") TOKEN_TYPES_KEYWORD.
Proof.
  destruct (word_tokens_are_classified (str "while While"))
    as (toks & Hl & HF).
  change (lex (str "while While"))
    with (Some [mkToken KEYWORD (str "while") 1 1;
                mkToken IDENTIFIER (str "While") 1 7]) in Hl.
  injection Hl as <-.
  split.
  - exact (proj1 (Forall_inv HF) eq_refl).
  - exact (proj1 (proj2 (Forall_inv (Forall_inv_tail HF))) eq_refl).
Defined.

Section MoreShapes.

Lemma number_lexeme_chars l c :
  In c (fst (number_lexeme l)) -> isdigit c = true \/ c = DOT.
Proof.
  unfold number_lexeme.
  destruct (drop_while isdigit l) as [|x r2]; cbn [fst].
  - intros H. left. now apply take_while_In in H.
  - destruct (Ascii.eqb x DOT); cbn [fst].
    + intros H. apply in_app_or in H as [H|[H|H]]; auto.
      * left. now apply take_while_In in H.
      * left. now apply take_while_In in H.
    + intros H. left. now apply take_while_In in H.
Qed.

Lemma table_entry_has_no_newline ch nx :
  In [ch; nx] multi_char_ops -> ~ In NL [ch; nx].
Proof.
  intros Hin. unfold multi_char_ops in Hin. simpl in Hin.
  repeat (destruct Hin as [Hin|Hin];
          [injection Hin as <- <-; simpl; intuition discriminate|]).
  contradiction.
Qed.

Lemma lexeme_with_newline ch r :
  In NL (lexeme_value (lexeme_type (ch :: r)) (lexeme_span (ch :: r))) ->
  lexeme_type (ch :: r) = STRING
  \/ (lexeme_type (ch :: r) = COMMENT
      /\ exists v, lexeme_span (ch :: r) = SLASH :: STAR :: v).
Proof.
  pose proof (lexeme_inv ch r) as Hinv.
  destruct (lexeme_type (ch :: r)) eqn:T; cbn [lexeme_value]; intros H;
    auto.
  - exfalso. destruct Hinv as (_ & Hs & _). rewrite Hs in H.
    apply take_while_In in H. discriminate H.
  - exfalso. destruct Hinv as (_ & Hs & _). rewrite Hs in H.
    apply take_while_In in H. discriminate H.
  - exfalso. destruct Hinv as (_ & Hs & _). rewrite Hs in H.
    apply number_lexeme_chars in H as [H|H]; discriminate H.
  - exfalso. destruct Hinv as (_ & Hs & _). rewrite Hs in H.
    apply number_lexeme_chars in H as [H|H]; discriminate H.
  - destruct Hinv as [(r' & _ & _ & Hs)|(r' & _ & _ & Hs)].
    + exfalso. rewrite Hs in H.
      destruct H as [H|[H|H]]; try discriminate H.
      now apply not_newline_take in H.
    + right. split; [reflexivity|]. now exists (block_body r').
  - exfalso. destruct Hinv as (_ & Hs). rewrite Hs in H.
    destruct H as [H|H]; [discriminate H|].
    now apply not_newline_take in H.
  - exfalso. simpl in H. intuition discriminate.
  - exfalso.
    destruct Hinv as [(nx & r' & _ & Hs & Hin & _)|(Hs & Hop)];
      rewrite Hs in H.
    + now apply table_entry_has_no_newline in H.
    + destruct H as [H|[]]. subst ch. discriminate Hop.
  - exfalso. destruct Hinv as (Hs & Hd & _). rewrite Hs in H.
    destruct H as [H|[]]. subst ch. discriminate Hd.
  - exfalso. destruct Hinv as (Hs & Hn & _). rewrite Hs in H.
    destruct H as [H|[]]. subst ch. discriminate Hn.
Qed.

End MoreShapes.

(** X9: in every output, the value of an [OPERATOR] token is an entry of
    the two-character table other than ["//"] or one character of the
    one-character operator set; the value of a [DELIMITER] token is one
    character of the delimiter set; the value of an [UNKNOWN] token is one
    character that is no horizontal whitespace, newline, [#], digit,
    letter, underscore, quote, operator character or delimiter. *)
Theorem symbol_tokens_come_from_the_tables src :
  exists toks,
    lex src = Some toks
    /\ Forall
         (fun t =>
            (tok_type t = OPERATOR ->
             (In (tok_value t) multi_char_ops /\ tok_value t <> str "//")
             \/ exists c, tok_value t = [c] /\ in_chars c single_ops = true)
            /\ (tok_type t = DELIMITER ->
                exists c, tok_value t = [c] /\ in_chars c delimiters = true)
            /\ (tok_type t = UNKNOWN ->
                exists c,
                  tok_value t = [c]
                  /\ is_hspace c = false
                  /\ c <> NL /\ c <> HASH
                  /\ isdigit c = false
                  /\ isalpha c || Ascii.eqb c UNDERSCORE = false
                  /\ in_chars c [DQUOTE; SQUOTE] = false
                  /\ in_chars c single_ops = false
                  /\ in_chars c delimiters = false))
         toks.
Proof.
  apply lex_tokens. intros ch r l c Hch. cbn [tok_type tok_value].
  pose proof (lexeme_inv ch r) as Hinv.
  destruct (lexeme_type (ch :: r)) eqn:T; cbn [lexeme_value];
    (split; [|split]); try discriminate; intros _.
  - destruct Hinv as [(nx & r' & _ & -> & Hin & Hne)|(-> & Hop)].
    + left. now split.
    + right. now exists ch.
  - destruct Hinv as (-> & Hd & _). now exists ch.
  - destruct Hinv as (-> & Hn & Hh & Hd & Hw & Hq & Ho & Hdl).
    apply Ascii.eqb_neq in Hn, Hh.
    exists ch. repeat split; auto.
Qed.

Lemma symbol_tokens_come_from_the_tables_witness :
  (In (str "->") multi_char_ops /\ str "->" <> str "//")
  \/ exists c, str "->" = [c] /\ in_chars c single_ops = true.
Proof.
  destruct (symbol_tokens_come_from_the_tables (str "->"))
    as (toks & Hl & HF).
  change (lex (str "->")) with (Some [mkToken OPERATOR (str "->") 1 1]) in Hl.
  injection Hl as <-.
  exact (proj1 (Forall_inv HF) eq_refl).
Defined.

(** X10: in every output, a [STRING] value starts with a double or a
    single quote, a [COMMENT] value starts with ["//"] or ["/*"], and a
    [PREPROCESSOR] value starts with [#]; the only tokens whose value can
    contain a newline character, and so reach over several lines, are
    [STRING] tokens and the [COMMENT] tokens that start with ["/*"]. *)
Theorem only_strings_and_block_comments_span_lines src :
  exists toks,
    lex src = Some toks
    /\ Forall
         (fun t =>
            (tok_type t = STRING ->
             exists q v, tok_value t = q :: v /\ (q = DQUOTE \/ q = SQUOTE))
            /\ (tok_type t = COMMENT ->
                exists v, tok_value t = SLASH :: SLASH :: v
                          \/ tok_value t = SLASH :: STAR :: v)
            /\ (tok_type t = PREPROCESSOR ->
                exists v, tok_value t = HASH :: v)
            /\ (In NL (tok_value t) ->
                tok_type t = STRING
                \/ (tok_type t = COMMENT
                    /\ exists v, tok_value t = SLASH :: STAR :: v)))
         toks.
Proof.
  apply lex_tokens. intros ch r l c _. cbn [tok_type tok_value].
  pose proof (lexeme_inv ch r) as Hinv.
  pose proof (lexeme_with_newline ch r) as Hnl.
  destruct (lexeme_type (ch :: r)) eqn:T; cbn [lexeme_value] in *;
    (split; [|split; [|split]]); try discriminate; try exact Hnl.
  - intros _. destruct Hinv as (Hq & ->). exists ch, (string_span ch r).
    split; [reflexivity|]. now apply quote_cases.
  - intros _. destruct Hinv as [(r' & _ & _ & ->)|(r' & _ & _ & ->)];
      eexists; [left|right]; reflexivity.
  - intros _. destruct Hinv as (_ & ->). eexists. reflexivity.
  - intros H. exfalso. simpl in H. intuition discriminate.
Qed.

Lemma only_strings_and_block_comments_span_lines_witness :
  In NL (str "/*" ++ [NL] ++ str "*/")
  /\ (COMMENT = STRING
      \/ (COMMENT = COMMENT
          /\ exists v, str "/*" ++ [NL] ++ str "*/" = SLASH :: STAR :: v)).
Proof.
  assert (Hin : In NL (str "/*" ++ [NL] ++ str "*/"))
    by (simpl; tauto).
  split; [exact Hin|].
  destruct (only_strings_and_block_comments_span_lines
              (str "/*" ++ [NL] ++ str "*/")) as (toks & Hl & HF).
  change (lex (str "/*" ++ [NL] ++ str "*/"))
    with (Some [mkToken COMMENT (str "/*" ++ [NL] ++ str "*/") 1 1]) in Hl.
  injection Hl as <-.
  exact (proj2 (proj2 (proj2 (Forall_inv HF))) Hin).
Defined.

Section Counting.

Lemma Accounted_length l items : Accounted l items -> length items <= length l.
Proof.
  induction 1 as [|ws it rest items Hws Hne Hr H IH]; simpl; [lia|].
  rewrite !length_app.
  assert (0 < length (item_span it))
    by (destruct (item_span it); [congruence|simpl; lia]).
  lia.
Qed.

Lemma Accounted_spans l items :
  Accounted l items ->
  Forall (fun it => forall c, In c (item_span it) -> In c l) items.
Proof.
  induction 1 as [|ws it rest items Hws Hne Hr H IH]; constructor.
  - intros c Hc. apply in_or_app. right. apply in_or_app. now left.
  - eapply Forall_impl; [|exact IH]. intros it' Hit c Hc.
    apply in_or_app. right. apply in_or_app. right. now apply Hit.
Qed.

Lemma lex_hspace_only src : forallb is_hspace src = true -> lex src = Some [].
Proof.
  intros H. unfold lex, tokenize. rewrite budget_remaining.
  change (remaining (Lexer_init src)) with src.
  destruct src as [|c r]; [reflexivity|].
  cbn [length tokenize_loop]. rewrite loop_guard.
  change (remaining (Lexer_init (c :: r))) with (c :: r).
  rewrite tokenize_body_spec.
  change (remaining (Lexer_init (c :: r))) with (c :: r).
  now rewrite (drop_while_all _ _ H).
Qed.

Lemma lexeme_value_nonempty ch r :
  lexeme_value (lexeme_type (ch :: r)) (lexeme_span (ch :: r)) <> [].
Proof.
  pose proof (lexeme_span_nonempty ch r).
  destruct (lexeme_type (ch :: r)); cbn [lexeme_value]; auto; discriminate.
Qed.

End Counting.

(** X11: the lexer emits at most one token per character of the source,
    no token has an empty value, and the output is empty exactly when the
    source consists of spaces, tabs and carriage returns only (as the
    empty source does). *)
Theorem token_count_is_bounded_by_source_length src :
  exists toks,
    lex src = Some toks
    /\ length toks <= length src
    /\ Forall (fun t => tok_value t <> []) toks
    /\ (toks = [] <-> forallb is_hspace src = true).
Proof.
  destruct (lex_scanned src) as (items & Hl & Hsc).
  exists (map item_token items). split; [exact Hl|]. split.
  { rewrite length_map. eapply Accounted_length, Scanned_Accounted; eauto. }
  split.
  { apply (Scanned_Forall (fun t => tok_value t <> [])) with (1 := fun ch r _ _ => lexeme_value_nonempty ch r) (2 := Hsc). }
  split.
  - intros E. destruct items; [|discriminate]. now inversion Hsc.
  - intros H. rewrite (lex_hspace_only _ H) in Hl. now injection Hl.
Qed.

Lemma token_count_is_bounded_by_source_length_witness :
  forallb is_hspace [SPACE; TAB; CR] = true
  /\ lex [SPACE; TAB; CR] = Some [].
Proof.
  split; [reflexivity|].
  destruct (token_count_is_bounded_by_source_length [SPACE; TAB; CR])
    as (toks & Hl & _ & _ & Hiff).
  rewrite (proj2 Hiff eq_refl) in Hl. exact Hl.
Defined.

(** * The callers *)

Section Callers.

Lemma StronglySorted_filter (A : Type) (R : A -> A -> Prop) f l :
  StronglySorted R l -> StronglySorted R (filter f l).
Proof.
  induction 1 as [|x l Hs IH Hall]; simpl; [constructor|].
  destruct (f x); [|exact IH]. constructor; [exact IH|].
  rewrite Forall_forall in *. intros y Hy.
  apply filter_In in Hy as [Hy _]. now apply Hall.
Qed.

Lemma StronglySorted_map (A B : Type) (R : A -> A -> Prop)
    (S : B -> B -> Prop) (g : A -> B) l :
  (forall a b, R a b -> S (g a) (g b)) ->
  StronglySorted R l -> StronglySorted S (map g l).
Proof.
  intros HRS. induction 1 as [|x l Hs IH Hall]; simpl; constructor; auto.
  rewrite Forall_forall in *. intros y Hy.
  apply in_map_iff in Hy as (a & <- & Ha). auto.
Qed.

Lemma filter_all (A : Type) (f : A -> bool) l :
  Forall (fun x => f x = true) l -> filter f l = l.
Proof.
  induction 1 as [|x l Hx Hl IH]; simpl; auto. now rewrite Hx, IH.
Qed.

Lemma not_NEWLINE_true t : not_NEWLINE t = true <-> tok_type t <> NEWLINE.
Proof.
  unfold not_NEWLINE.
  destruct (TokenType_eq_dec (tok_type t) NEWLINE); split;
    congruence.
Qed.

Lemma NEWLINE_tokens_need_newlines l items :
  Accounted l items ->
  Forall (fun it => tok_type (item_token it) = NEWLINE -> In NL l) items.
Proof.
  intros H. pose proof (Accounted_spans _ _ H) as Hs.
  induction H as [|ws it rest items Hws Hne Hr H IH]; constructor.
  - intros T. apply (Forall_inv Hs).
    destruct Hr as [(_ & -> & _)|(Hn & _)]; [now left|contradiction].
  - apply Forall_inv_tail in Hs.
    assert (Hi : Forall
                   (fun it0 => tok_type (item_token it0) = NEWLINE ->
                               In NL rest) items).
    { apply IH. now apply Accounted_spans. }
    eapply Forall_impl; [|exact Hi]. intros it' Hit T.
    apply in_or_app. right. apply in_or_app. right. auto.
Qed.

Lemma dict_get_set d k v k' default :
  dict_get (dict_set d k v) k' default
  = if TokenType_eq_dec k k' then v else dict_get d k' default.
Proof.
  induction d as [|[k0 v0] d IH]; simpl.
  - destruct (TokenType_eq_dec k k'); reflexivity.
  - destruct (TokenType_eq_dec k0 k) as [->|Hk]; simpl.
    + destruct (TokenType_eq_dec k k'); reflexivity.
    + destruct (TokenType_eq_dec k0 k') as [->|Hk'].
      * destruct (TokenType_eq_dec k k'); [congruence|reflexivity].
      * exact IH.
Qed.

Lemma dict_set_sum d k v :
  list_sum (map snd (dict_set d k v)) + dict_get d k 0
  = list_sum (map snd d) + v.
Proof.
  induction d as [|[k0 v0] d IH]; simpl; [lia|].
  destruct (TokenType_eq_dec k0 k); simpl; lia.
Qed.

Lemma dict_set_keys d k v :
  map fst (dict_set d k v)
  = if in_dec TokenType_eq_dec k (map fst d)
    then map fst d else map fst d ++ [k].
Proof.
  induction d as [|[k0 v0] d IH]; simpl; [reflexivity|].
  destruct (TokenType_eq_dec k0 k) as [->|Hk]; simpl.
  - reflexivity.
  - rewrite IH.
    destruct (in_dec TokenType_eq_dec k (map fst d)); reflexivity.
Qed.

Lemma dict_set_NoDup d k v :
  NoDup (map fst d) -> NoDup (map fst (dict_set d k v)).
Proof.
  intros H. rewrite dict_set_keys.
  destruct (in_dec TokenType_eq_dec k (map fst d)) as [Hi|Hi]; auto.
  apply NoDup_app; auto.
  - constructor; [intros []|constructor].
  - intros x Hx [<-|[]]. contradiction.
Qed.

Lemma count_type_app ty a b :
  count_type ty (a ++ b) = count_type ty a + count_type ty b.
Proof. unfold count_type. now rewrite filter_app, length_app. Qed.

(** The loop of [display_tokens], from any intermediate state. *)
Lemma display_loop_spec : forall toks printed d,
  NoDup (map fst d) ->
  let out := display_loop toks printed d in
  fst out = printed ++ filter not_NEWLINE toks
  /\ NoDup (map fst (snd out))
  /\ list_sum (map snd (snd out))
     = list_sum (map snd d) + length (filter not_NEWLINE toks)
  /\ forall ty,
       dict_get (snd out) ty 0
       = dict_get d ty 0 + count_type ty (filter not_NEWLINE toks).
Proof.
  induction toks as [|t toks IH]; intros printed d Hd; cbn zeta.
  - simpl. rewrite app_nil_r. repeat split; auto.
  - cbn [display_loop filter].
    destruct (not_NEWLINE t) eqn:E.
    + destruct (IH (printed ++ [t])
                  (dict_set d (tok_type t) (dict_get d (tok_type t) 0 + 1))
                  (dict_set_NoDup _ _ _ Hd))
        as (Hp & Hn & Hs & Hg).
      split; [now rewrite Hp, <- app_assoc|]. split; [exact Hn|]. split.
      * rewrite Hs. pose proof (dict_set_sum d (tok_type t)
                                  (dict_get d (tok_type t) 0 + 1)).
        simpl. lia.
      * intros ty. rewrite Hg, dict_get_set.
        change (t :: filter not_NEWLINE toks)
          with ([t] ++ filter not_NEWLINE toks).
        rewrite count_type_app. unfold count_type at 2. simpl.
        destruct (TokenType_eq_dec (tok_type t) ty) as [->|Hne]; simpl; lia.
    + now apply IH.
Qed.

Lemma count_type_filter ty toks :
  ty <> NEWLINE ->
  count_type ty (filter not_NEWLINE toks) = count_type ty toks.
Proof.
  intros Hty. unfold count_type.
  induction toks as [|t toks IH]; simpl; auto.
  destruct (not_NEWLINE t) eqn:E; simpl.
  - destruct (TokenType_eq_dec (tok_type t) ty); simpl; auto.
  - assert (Ht : tok_type t = NEWLINE).
    { unfold not_NEWLINE in E.
      now destruct (TokenType_eq_dec (tok_type t) NEWLINE). }
    destruct (TokenType_eq_dec (tok_type t) ty); [congruence|exact IH].
Qed.

Lemma count_type_NEWLINE_filter toks :
  count_type NEWLINE (filter not_NEWLINE toks) = 0.
Proof.
  unfold count_type.
  induction toks as [|t toks IH]; simpl; auto.
  destruct (not_NEWLINE t) eqn:E; simpl; auto.
  apply not_NEWLINE_true in E.
  destruct (TokenType_eq_dec (tok_type t) NEWLINE); [contradiction|exact IH].
Qed.

Lemma dict_get_positive d k :
  Forall (fun kv => 0 < snd kv) d ->
  (In k (map fst d) <-> 0 < dict_get d k 0).
Proof.
  induction 1 as [|[k0 v0] d Hv Hd IH]; simpl.
  - split; [intros []|lia].
  - destruct (TokenType_eq_dec k0 k) as [->|Hk].
    + split; auto.
    + rewrite <- IH. split; [intros [H|H]; [congruence|exact H]|auto].
Qed.

Lemma dict_set_positive d k v :
  0 < v -> Forall (fun kv => 0 < snd kv) d ->
  Forall (fun kv => 0 < snd kv) (dict_set d k v).
Proof.
  intros Hv. induction 1 as [|[k0 v0] d H0 Hd IH]; simpl.
  - constructor; auto.
  - destruct (TokenType_eq_dec k0 k); constructor; auto.
Qed.

Lemma display_loop_positive : forall toks printed d,
  Forall (fun kv => 0 < snd kv) d ->
  Forall (fun kv => 0 < snd kv) (snd (display_loop toks printed d)).
Proof.
  induction toks as [|t toks IH]; intros printed d Hd; simpl; auto.
  destruct (not_NEWLINE t); [|now apply IH].
  apply IH, dict_set_positive; [lia|exact Hd].
Qed.

Lemma display_loop_keys toks ty :
  In ty (map fst (snd (display_loop toks [] []))) <->
  0 < dict_get (snd (display_loop toks [] [])) ty 0.
Proof.
  apply dict_get_positive, display_loop_positive. constructor.
Qed.

End Callers.

(** X12: the web endpoint answers every submitted text with a token list:
    the tokens of [tokenize] without the [NEWLINE] tokens, each with its
    type, value, line and column unchanged.  The response holds no
    [NEWLINE] token, it is strictly ordered by (line, column), it is no
    longer than the submitted text, and for a text without newline
    characters it holds every token of [tokenize]. *)
Theorem api_lex_drops_only_newline_tokens code :
  exists toks out,
    lex code = Some toks
    /\ api_lex code = Some out
    /\ out = map to_TokenOut (filter not_NEWLINE toks)
    /\ Forall (fun t => out_type t <> NEWLINE) out
    /\ StronglySorted (fun a b => loc_lt (out_loc a) (out_loc b)) out
    /\ length out <= length code
    /\ (~ In NL code -> out = map to_TokenOut toks).
Proof.
  destruct (lex_scanned code) as (items & Hl & Hsc).
  pose proof (Scanned_Accounted _ _ _ _ Hsc) as Hacc.
  destruct (Scanned_ordered _ _ _ _ Hsc code [] eq_refl eq_refl eq_refl)
    as (_ & _ & _ & Hsl).
  exists (map item_token items),
    (map to_TokenOut (filter not_NEWLINE (map item_token items))).
  split; [exact Hl|]. unfold api_lex. unfold lex in Hl. rewrite Hl.
  split; [reflexivity|]. split; [reflexivity|]. split; [|split; [|split]].
  - apply Forall_forall. intros t Ht.
    apply in_map_iff in Ht as (x & <- & Hx).
    apply filter_In in Hx as [_ Hx]. now apply not_NEWLINE_true.
  - apply (StronglySorted_map _ _
             (fun a b => loc_lt (tok_loc a) (tok_loc b))); [auto|].
    now apply StronglySorted_filter.
  - rewrite length_map.
    pose proof (filter_length_le not_NEWLINE (map item_token items)).
    pose proof (Accounted_length _ _ Hacc). rewrite length_map in *. lia.
  - intros Hno. f_equal. apply filter_all.
    pose proof (NEWLINE_tokens_need_newlines _ _ Hacc) as HN.
    apply Forall_forall. intros t Ht.
    apply in_map_iff in Ht as (it & <- & Hit).
    rewrite Forall_forall in HN. apply not_NEWLINE_true.
    intros T. apply Hno. now apply (HN it).
Qed.

Lemma api_lex_drops_only_newline_tokens_witness :
  ~ In NL (str "a+1")
  /\ exists toks out,
       lex (str "a+1") = Some toks
       /\ api_lex (str "a+1") = Some out
       /\ out = map to_TokenOut toks.
Proof.
  assert (Hno : ~ In NL (str "a+1")) by (simpl; intuition discriminate).
  split; [exact Hno|].
  destruct (api_lex_drops_only_newline_tokens (str "a+1"))
    as (toks & out & Hl & Ha & _ & _ & _ & _ & Hall).
  exists toks, out. split; [exact Hl|]. split; [exact Ha|exact (Hall Hno)].
Defined.

(** X13: the summary of [display_tokens] agrees with what it prints: the
    printed rows are the tokens other than [NEWLINE], in order; the total
    it shows is the number of printed rows; the dictionary holds each type
    at most once, never the type [NEWLINE], and gives every other type the
    number of tokens of that type (0 for a type that does not occur). *)
Theorem display_summary_counts_printed_tokens toks :
  display_printed toks = filter not_NEWLINE toks
  /\ display_total toks = length (display_printed toks)
  /\ NoDup (map fst (display_type_count toks))
  /\ ~ In NEWLINE (map fst (display_type_count toks))
  /\ (forall ty,
         ty <> NEWLINE ->
         dict_get (display_type_count toks) ty 0 = count_type ty toks)
  /\ (forall ty,
         In ty (map fst (display_type_count toks)) <->
         ty <> NEWLINE /\ 0 < count_type ty toks).
Proof.
  unfold display_printed, display_total, display_type_count.
  destruct (display_loop_spec toks [] [] (NoDup_nil _))
    as (Hp & Hn & Hs & Hg).
  cbn [app map list_sum dict_get] in *.
  assert (Hkeys : forall ty,
             In ty (map fst (snd (display_loop toks [] []))) <->
             0 < dict_get (snd (display_loop toks [] [])) ty 0).
  { intros ty. apply display_loop_keys. }
  split; [exact Hp|]. split; [now rewrite Hs, Hp|]. split; [exact Hn|].
  split.
  { intros H. apply Hkeys in H.
    rewrite Hg, count_type_NEWLINE_filter in H. lia. }
  split.
  { intros ty Hty. now rewrite Hg, count_type_filter. }
  intros ty. rewrite Hkeys, Hg. split.
  - intros H. destruct (TokenType_eq_dec ty NEWLINE) as [->|Hty].
    + rewrite count_type_NEWLINE_filter in H. lia.
    + rewrite count_type_filter in H by assumption. auto.
  - intros [Hty H]. now rewrite count_type_filter.
Qed.

Lemma display_summary_counts_printed_tokens_witness :
  IDENTIFIER <> NEWLINE
  /\ dict_get
       (display_type_count
          [mkToken IDENTIFIER (str "a") 1 1; mkToken NEWLINE NEWLINE_VALUE 1 2;
           mkToken IDENTIFIER (str "b") 2 1; mkToken OPERATOR (str "+") 2 2])
       IDENTIFIER 0
     = count_type IDENTIFIER
         [mkToken IDENTIFIER (str "a") 1 1; mkToken NEWLINE NEWLINE_VALUE 1 2;
          mkToken IDENTIFIER (str "b") 2 1; mkToken OPERATOR (str "+") 2 2].
Proof.
  assert (Hty : IDENTIFIER <> NEWLINE) by discriminate.
  split; [exact Hty|].
  exact (proj1 (proj2 (proj2 (proj2 (proj2
           (display_summary_counts_printed_tokens
              [mkToken IDENTIFIER (str "a") 1 1;
               mkToken NEWLINE NEWLINE_VALUE 1 2;
               mkToken IDENTIFIER (str "b") 2 1;
               mkToken OPERATOR (str "+") 2 2])))))
           IDENTIFIER Hty).
Defined.

(** * The sub-scanners, called in any state *)

Section Contract.

Lemma pos_advance self : pos (advance self) = pos self + 1.
Proof. unfold advance. now destruct (is_char (current_char self) NL). Qed.

Lemma source_advance self : source (advance self) = source self.
Proof. unfold advance. now destruct (is_char (current_char self) NL). Qed.

Lemma tokens_advance self : tokens (advance self) = tokens self.
Proof. unfold advance. now destruct (is_char (current_char self) NL). Qed.

Lemma lex_string_any self q :
  exists p,
    lex_string self q
    = Some (add_token (consume p (advance self)) STRING
              (q :: p) (line self) (column self)).
Proof.
  unfold lex_string.
  rewrite lex_string_loop_spec by (rewrite budget_remaining; lia).
  set (body := string_body q (remaining (advance self))).
  assert (Eb : remaining (consume body (advance self))
               = skipn (length body) (remaining (advance self))).
  { apply remaining_consume. symmetry.
    apply (string_body_prefix q (length (remaining (advance self)))). lia. }
  rewrite current_char_remaining, Eb.
  destruct (skipn (length body) (remaining (advance self)))
    as [|d r'] eqn:Er; cbn [hd_error].
  - exists body. reflexivity.
  - destruct (Ascii.eqb d q).
    + exists (body ++ [d]).
      now rewrite (advance_consume _ _ _ Eb), consume_app.
    + exists body. reflexivity.
Qed.

Lemma lex_multi_comment_any self :
  exists p,
    lex_multi_comment self
    = Some (add_token (consume p (advance (advance self))) COMMENT
              (SLASH :: STAR :: p) (line self) (column self)).
Proof.
  unfold lex_multi_comment.
  rewrite lex_multi_comment_loop_spec by (rewrite budget_remaining; lia).
  now exists (block_body (remaining (advance (advance self)))).
Qed.

End Contract.

(** X14: every sub-scanner, called in any state (also where the dispatcher
    would not call it, and at the end of the source), returns and appends
    exactly one token of its own type, recorded at the line and column of
    the call; it leaves the source alone and never moves the position
    back.  Called with no current character, [lex_number],
    [lex_identifier], [lex_single_comment] and [lex_preprocessor] append a
    token with the empty value and do not move, while [lex_newline],
    [lex_string] and [lex_multi_comment] advance without looking and leave
    the position beyond the end of the source. *)
Theorem sub_scanners_emit_one_token_each self q :
  (emits_one self (lex_number self) [INTEGER; FLOAT]
   /\ emits_one self (lex_identifier self) [KEYWORD; IDENTIFIER]
   /\ emits_one self (lex_string self q) [STRING]
   /\ emits_one self (lex_single_comment self) [COMMENT]
   /\ emits_one self (lex_multi_comment self) [COMMENT]
   /\ emits_one self (lex_preprocessor self) [PREPROCESSOR]
   /\ emits_one self (Some (lex_newline self)) [NEWLINE])
  /\ (current_char self = None ->
      lex_number self
      = Some (add_token self INTEGER [] (line self) (column self))
      /\ lex_identifier self
         = Some (add_token self IDENTIFIER [] (line self) (column self))
      /\ lex_single_comment self
         = Some (add_token self COMMENT [] (line self) (column self))
      /\ lex_preprocessor self
         = Some (add_token self PREPROCESSOR [] (line self) (column self))
      /\ pos (lex_newline self) = pos self + 1
      /\ (exists self', lex_string self q = Some self'
                        /\ pos self' = pos self + 1)
      /\ (exists self', lex_multi_comment self = Some self'
                        /\ pos self' = pos self + 2)).
Proof.
  split.
  - repeat split.
    + rewrite lex_number_spec. cbv zeta.
      exists (add_token
                (consume (fst (number_span false (remaining self))) self)
                (if snd (number_span false (remaining self))
                 then FLOAT else INTEGER)
                (fst (number_span false (remaining self)))
                (line self) (column self)),
        (if snd (number_span false (remaining self)) then FLOAT else INTEGER),
        (fst (number_span false (remaining self))).
      split; [reflexivity|]. split.
      { destruct (snd (number_span false (remaining self))); simpl; auto. }
      split; [reflexivity|]. split; [reflexivity|].
      unfold add_token, consume. cbn [pos]. lia.
    + rewrite lex_identifier_spec. cbv zeta.
      set (word := take_while is_word_char (remaining self)).
      exists (add_token (consume word self)
                (if in_words word TOKEN_TYPES_KEYWORD
                 then KEYWORD else IDENTIFIER)
                word (line self) (column self)),
        (if in_words word TOKEN_TYPES_KEYWORD then KEYWORD else IDENTIFIER),
        word.
      split; [reflexivity|]. split.
      { destruct (in_words word TOKEN_TYPES_KEYWORD); simpl; auto. }
      split; [reflexivity|]. split; [reflexivity|].
      unfold add_token, consume. cbn [pos]. lia.
    + destruct (lex_string_any self q) as [p Hp].
      eexists _, STRING, (q :: p). split; [exact Hp|].
      split; [now left|]. unfold add_token, consume. cbn [tokens source pos].
      rewrite tokens_advance, source_advance, pos_advance.
      repeat split. lia.
    + rewrite lex_single_comment_spec.
      eexists _, COMMENT, _. split; [reflexivity|]. split; [now left|].
      split; [reflexivity|]. split; [reflexivity|].
      unfold add_token, consume. cbn [pos]. lia.
    + destruct (lex_multi_comment_any self) as [p Hp].
      eexists _, COMMENT, (SLASH :: STAR :: p). split; [exact Hp|].
      split; [now left|]. unfold add_token, consume. cbn [tokens source pos].
      rewrite !tokens_advance, !source_advance, !pos_advance.
      repeat split. lia.
    + rewrite lex_preprocessor_spec.
      eexists _, PREPROCESSOR, _. split; [reflexivity|]. split; [now left|].
      split; [reflexivity|]. split; [reflexivity|].
      unfold add_token, consume. cbn [pos]. lia.
    + eexists _, NEWLINE, NEWLINE_VALUE. split; [reflexivity|].
      split; [now left|]. unfold lex_newline.
      rewrite advance_add_token. unfold add_token. cbn [tokens source pos].
      rewrite tokens_advance, source_advance, pos_advance.
      repeat split. lia.
  - intros Hnone.
    assert (E : remaining self = []).
    { rewrite current_char_remaining in Hnone.
      now destruct (remaining self). }
    assert (Ea : remaining (advance self) = [])
      by now rewrite remaining_advance, E.
    assert (Eaa : remaining (advance (advance self)) = [])
      by now rewrite remaining_advance, Ea.
    split; [|split; [|split; [|split; [|split; [|split]]]]].
    + rewrite lex_number_spec, E. cbn [number_span fst snd].
      now rewrite consume_nil.
    + rewrite lex_identifier_spec, E. cbn [take_while].
      now rewrite consume_nil.
    + rewrite lex_single_comment_spec, E. cbn [take_while].
      now rewrite consume_nil.
    + rewrite lex_preprocessor_spec, E. cbn [take_while].
      now rewrite consume_nil.
    + unfold lex_newline. rewrite advance_add_token.
      unfold add_token. cbn [pos]. apply pos_advance.
    + unfold lex_string.
      rewrite lex_string_loop_spec by (rewrite budget_remaining; lia).
      rewrite Ea. cbn [string_body]. rewrite consume_nil.
      rewrite current_char_remaining, Ea. cbn [hd_error].
      eexists. split; [reflexivity|].
      unfold add_token. cbn [pos]. apply pos_advance.
    + unfold lex_multi_comment.
      rewrite lex_multi_comment_loop_spec
        by (rewrite budget_remaining; lia).
      rewrite Eaa. cbn [block_body]. rewrite consume_nil.
      eexists. split; [reflexivity|].
      unfold add_token. cbn [pos]. rewrite !pos_advance. lia.
Qed.

Lemma sub_scanners_emit_one_token_each_witness :
  current_char (Lexer_init (str "")) = None
  /\ lex_number (Lexer_init (str ""))
     = Some (add_token (Lexer_init (str "")) INTEGER [] 1 1)
  /\ exists self', lex_string (Lexer_init (str "")) DQUOTE = Some self'
                   /\ pos self' = 0 + 1.
Proof.
  split; [reflexivity|].
  destruct (proj2 (sub_scanners_emit_one_token_each
                     (Lexer_init (str "")) DQUOTE) eq_refl)
    as (Hn & _ & _ & _ & _ & Hs & _).
  split; [exact Hn|exact Hs].
Defined.

Section RoundTrip.

Lemma hspace_free_nil ws l :
  forallb is_hspace ws = true ->
  (forall c, In c (ws ++ l) -> is_hspace c = false) ->
  ws = [].
Proof.
  destruct ws as [|c ws]; auto. simpl. intros H Hno.
  apply andb_true_iff in H as [Hc _].
  rewrite (Hno c) in Hc by now left. discriminate.
Qed.

Lemma Accounted_concat l items :
  Accounted l items ->
  (forall c, In c l -> is_hspace c = false /\ c <> NL) ->
  concat (map (fun it => tok_value (item_token it)) items) = l.
Proof.
  induction 1 as [|ws it rest items Hws Hne Hr H IH]; intros Hno.
  - simpl. symmetry. apply (hspace_free_nil ws []); auto.
    intros c Hc. rewrite app_nil_r in Hc. now apply Hno.
  - assert (Ew : ws = []).
    { apply (hspace_free_nil ws (item_span it ++ rest)); auto.
      intros c Hc. now apply Hno. }
    subst ws. cbn [app map concat] in *.
    rewrite IH by (intros c Hc; apply Hno, in_or_app; now right).
    f_equal. destruct Hr as [(_ & Hs & _)|(_ & Hv)]; [|exact Hv].
    exfalso. apply (Hno NL); [|reflexivity].
    apply in_or_app. left. rewrite Hs. now left.
Qed.

End RoundTrip.

(** X15: on a source without whitespace (no space, tab, carriage return
    or newline character) the lexer loses nothing: the values of the
    tokens, concatenated in order, are the source. *)
Theorem token_values_rebuild_whitespace_free_source src :
  (forall c, In c src -> is_hspace c = false /\ c <> NL) ->
  exists toks,
    lex src = Some toks /\ concat (map tok_value toks) = src.
Proof.
  intros Hno. destruct (lex_scanned src) as (items & Hl & Hsc).
  exists (map item_token items). split; [exact Hl|].
  rewrite map_map. apply Accounted_concat; [|exact Hno].
  eapply Scanned_Accounted; eauto.
Qed.

Lemma token_values_rebuild_whitespace_free_source_witness :
  (forall c, In c (str "f(x)->y1") -> is_hspace c = false /\ c <> NL)
  /\ exists toks,
       lex (str "f(x)->y1") = Some toks
       /\ concat (map tok_value toks) = str "f(x)->y1".
Proof.
  assert (Hno : forall c, In c (str "f(x)->y1") ->
                          is_hspace c = false /\ c <> NL).
  { intros c Hc. simpl in Hc.
    repeat (destruct Hc as [<-|Hc]; [split; [reflexivity|discriminate]|]).
    contradiction. }
  split; [exact Hno|].
  exact (token_values_rebuild_whitespace_free_source (str "f(x)->y1") Hno).
Defined.
